(** * Semantic tables of the vtgate planner (package [semantics])

  A shallow embedding of the table-set algebra, the table descriptions, the
  dependency cache, the column-equality registry and the derived-table
  rewriter of [go/vt/vtgate/semantics], followed by the properties the
  specification states about them.

  Conventions of the embedding:
  - a [uint64] is a [Z] in [[0, 2^64)]; every operation that can leave the
    range is wrapped with [wrap] where the Go code wraps;
  - a Go [int] that only counts loop iterations (at most 64 of them) is a [nat];
  - a pointer to an AST node is the address of the node, a [positive]; pointer
    comparison is comparison of addresses;
  - a Go map that has been made is a [gmap]; a map whose key type is the
    interface [sqlparser.Expr] is keyed by what Go hashes, see [mapKey]; the
    nil map, which reads as the empty map and cannot be stored into, is a
    value of its own, see [ExprDependencies];
  - a method that mutates its receiver returns the new receiver;
  - a function that returns a value and an [error] returns a sum, [inl] with
    the value when the error is nil and [inr] with the error otherwise;
  - a call that can abort the goroutine returns an [Outcome]. *)

From Stdlib Require Import ZArith Lia Sorted.
From stdpp Require Import base option list gmap strings.

(** ** What a Go call ends in *)

(** [Returned a]: the call returned [a]. [Panicked msg]: the Go runtime (or an
  explicit [panic]) aborted the call. [OutOfFuel]: a loop of the embedding
  used up its iteration bound; the theorems show it does not happen on a
  [uint64]. *)
Inductive Outcome (A : Type) : Type :=
| Returned (a : A)
| Panicked (msg : string)
| OutOfFuel.
Arguments Returned {A} a.
Arguments Panicked {A} msg.
Arguments OutOfFuel {A}.

Definition bind {A B : Type} (m : Outcome A) (k : A -> Outcome B) : Outcome B :=
  match m with
  | Returned a => k a
  | Panicked msg => Panicked msg
  | OutOfFuel => OutOfFuel
  end.

Notation "'let*' x ':=' m 'in' k" := (bind m (fun x => k))
  (at level 10, x pattern, m at level 100, k at level 200, only parsing).

(** ** Errors ([vterrors]) *)

Inductive Code : Set := Code_INTERNAL | Code_INVALID_ARGUMENT.

Inductive State : Set := Undefined | NonUniqTable.

(** The value [vterrors.Errorf] and [vterrors.NewErrorf] build: a code, a state
  and the formatted message. *)
Record error : Set := mkError {
  err_code : Code;
  err_state : State;
  err_msg : string
}.

Definition Errorf (c : Code) (msg : string) : error := mkError c Undefined msg.
Definition NewErrorf (c : Code) (s : State) (msg : string) : error := mkError c s msg.

(** ** The AST ([sqlparser]) *)

Module sqlparser.

(** [TableIdent] wraps the (case-sensitive) text of a table identifier. *)
Record TableIdent : Set := mkTableIdent { v : string }.

Definition TableIdent_IsEmpty (node : TableIdent) : bool :=
  if decide (v node = EmptyString) then true else false.
Definition TableIdent_String (node : TableIdent) : string := v node.

(** [ColIdent] keeps the text as written; [String()] returns it unchanged. *)
Record ColIdent : Set := mkColIdent { val : string }.

Definition ColIdent_String (node : ColIdent) : string := val node.

Record TableName : Set := mkTableName {
  TableName_Name : TableIdent;
  TableName_Qualifier : TableIdent
}.

(** What stands in the FROM clause under an alias: a table name or a
    derived table (whose body is not needed here). *)
Inductive SimpleTableExpr : Set :=
| SimpleTableName (name : TableName)
| DerivedTable.

(** [*AliasedTableExpr]: the node at address [ate_addr]. *)
Record AliasedTableExpr : Set := mkAliasedTableExpr {
  ate_addr : positive;
  ate_Expr : SimpleTableExpr;
  ate_As : TableIdent
}.

(** Modelled from the spec: [AliasedTableExpr.TableName] of [sqlparser], the
    resolved name, which "fails if the underlying AST node has no derivable
    name": the alias when there is one, else the table name, else an error. *)
Definition AliasedTableExpr_TableName (node : AliasedTableExpr) : TableName + error :=
  if TableIdent_IsEmpty (ate_As node) then
    match ate_Expr node with
    | SimpleTableName name => inl name
    | DerivedTable =>
        inr (Errorf Code_INTERNAL
               "BUG: Derived table should have an alias. This should not be possible")
    end
  else inl (mkTableName (ate_As node) (mkTableIdent EmptyString)).

(** [*ColName]: the node at address [col_addr]. *)
Record ColName : Set := mkColName {
  col_addr : positive;
  ColName_Name : ColIdent;
  ColName_Qualifier : TableName
}.

(** A fragment of [sqlparser.Expr]. Every variant but the last two is a
    pointer to a struct and carries the address of the node; [Argument] is a
    Go string and [ValTuple] a Go slice of expressions. *)
#[local] Unset Elimination Schemes.
Inductive Expr : Set :=
| ColNameExpr (c : ColName)
| Literal (addr : positive) (lit : string)
| BinaryExpr (addr : positive) (op : string) (Left Right : Expr)
| ComparisonExpr (addr : positive) (op : string) (Left Right : Expr)
| NotExpr (addr : positive) (e : Expr)
| Argument (name : string)
| ValTuple (es : list Expr).
#[local] Set Elimination Schemes.

(** Modelled from the spec: what the Go runtime hashes and compares when an
    [Expr] is a map key ("caches keyed by expression identity"): the
    address for a pointer variant, the text for an [Argument]. A slice cannot
    be hashed: [None] stands for the run-time panic a [ValTuple] key raises. *)
Definition mapKey (e : Expr) : option (positive + string) :=
  match e with
  | ColNameExpr c => Some (inl (col_addr c))
  | Literal a _ | BinaryExpr a _ _ _ | ComparisonExpr a _ _ _ | NotExpr a _ => Some (inl a)
  | Argument s => Some (inr s)
  | ValTuple _ => None
  end.

Definition unhashable : string := "runtime error: hash of unhashable type sqlparser.ValTuple".

(** Modelled from the spec: [sqlparser.Walk] with a visitor that never fails,
    the top-down walk of section 4.4: the visitor sees a node before its
    children and its answer decides whether the children are visited. The
    visitor's captured variables are the state [S]. *)
Fixpoint Walk {S : Type} (visit : Expr -> S -> bool * S) (node : Expr) (s : S) : S :=
  let '(kontinue, s1) := visit node s in
  if kontinue then
    match node with
    | BinaryExpr _ _ l r | ComparisonExpr _ _ l r => Walk visit r (Walk visit l s1)
    | NotExpr _ e => Walk visit e s1
    | ValTuple es =>
        (fix WalkList (es : list Expr) (s : S) : S :=
           match es with
           | [] => s
           | e :: es' => WalkList es' (Walk visit e s)
           end) es s1
    | ColNameExpr _ | Literal _ _ | Argument _ => s1
    end
  else s1.

(** Modelled from the spec: [sqlparser.CloneExpr], "the input is cloned,
    never mutated": a copy of the tree whose nodes are allocated at the
    addresses from [next] on; the second component is the next free
    address. *)
Fixpoint CloneExpr (e : Expr) (next : positive) : Expr * positive :=
  match e with
  | ColNameExpr c =>
      (ColNameExpr (mkColName next (ColName_Name c) (ColName_Qualifier c)), Pos.succ next)
  | Literal _ lit => (Literal next lit, Pos.succ next)
  | BinaryExpr _ op l r =>
      let '(l', n1) := CloneExpr l (Pos.succ next) in
      let '(r', n2) := CloneExpr r n1 in
      (BinaryExpr next op l' r', n2)
  | ComparisonExpr _ op l r =>
      let '(l', n1) := CloneExpr l (Pos.succ next) in
      let '(r', n2) := CloneExpr r n1 in
      (ComparisonExpr next op l' r', n2)
  | NotExpr _ e1 =>
      let '(e1', n1) := CloneExpr e1 (Pos.succ next) in
      (NotExpr next e1', n1)
  | Argument s => (Argument s, next)
  | ValTuple es =>
      let '(es', n1) :=
        (fix CloneList (es : list Expr) (next : positive) : list Expr * positive :=
           match es with
           | [] => ([], next)
           | e1 :: es1 =>
               let '(e1', n1) := CloneExpr e1 next in
               let '(es1', n2) := CloneList es1 n1 in
               (e1' :: es1', n2)
           end) es next in
      (ValTuple es', n1)
  end.

(** What a [pre] callback of [Rewrite] did with its cursor: the node it put
    in place of the current one, if it called [Replace], and its answer. *)
Definition Applied : Set := (option Expr * bool)%type.

(** Modelled from the spec: [sqlparser.Rewrite] with a [pre] callback and no
    [post] callback, the traversal section 4.6 relies on. [Replace] writes
    the new node into the slot of the parent that held the current node; the
    children of the current node are visited when the callback answers true.

    [rewriteNode pre node] returns the content of the parent's slot after the
    visit and the visited node itself after the visit of its children. *)
Fixpoint rewriteNode (pre : Expr -> Outcome Applied) (node : Expr) : Outcome (Expr * Expr) :=
  let* (replaced, kontinue) := pre node in
  let* self :=
    (if kontinue then
             match node with
             | BinaryExpr a op l r =>
                 let* (l', _) := rewriteNode pre l in
                 let* (r', _) := rewriteNode pre r in
                 Returned (BinaryExpr a op l' r')
             | ComparisonExpr a op l r =>
                 let* (l', _) := rewriteNode pre l in
                 let* (r', _) := rewriteNode pre r in
                 Returned (ComparisonExpr a op l' r')
             | NotExpr a e =>
                 let* (e', _) := rewriteNode pre e in
                 Returned (NotExpr a e')
             | ValTuple es =>
                 let* es' :=
                   (fix rewriteList (es : list Expr) : Outcome (list Expr) :=
                           match es with
                           | [] => Returned []
                           | e :: es1 =>
                               let* (e', _) := rewriteNode pre e in
                               let* es1' := rewriteList es1 in
                               Returned (e' :: es1')
                           end) es in
                 Returned (ValTuple es')
             | ColNameExpr _ | Literal _ _ | Argument _ => Returned node
             end
           else Returned node) in
  Returned (match replaced with Some new => new | None => self end, self).

(** [Rewrite node pre nil]: the result is what the root slot holds; the tree
    under [node] has been rewritten in place into [root]. *)
Record Rewritten : Set := mkRewritten { result : Expr; root : Expr }.

Definition Rewrite (node : Expr) (pre : Expr -> Outcome Applied) : Outcome Rewritten :=
  let* (slot, self) := rewriteNode pre node in
  Returned (mkRewritten slot self).

End sqlparser.

(** ** Catalog metadata ([vindexes], [querypb]) *)

(** [querypb.Type], an [int32] enumeration; its zero value is [NULL_TYPE]. *)
Abbreviation querypb_Type := Z.
Definition Type_NULL_TYPE : querypb_Type := 0%Z.

Module vindexes.
Import sqlparser.

Record Column : Set := mkColumn {
  Column_Name : ColIdent;
  Column_Type : querypb_Type
}.

(** [*ColumnVindex]; only the column list is read here. *)
Record ColumnVindex : Set := mkColumnVindex {
  ColumnVindex_Columns : list ColIdent
}.

(** [Table]; only the fields the semantic tables read. *)
Record Table : Set := mkTable {
  Table_Name : TableIdent;
  Columns : list Column;
  ColumnVindexes : list ColumnVindex;
  ColumnListAuthoritative : bool
}.

(** [vindexes.Vindex] is an interface value; a handle stands for it. *)
Definition Vindex : Set := positive.

End vindexes.

(** ** Package [semantics] *)

Module semantics.
Import sqlparser vindexes.

(** *** TableSet *)

(** [TableSet uint64]: "we can only join 64 tables with this underlying data
    type". *)
Abbreviation TableSet := Z.

Definition modulus : Z := (2 ^ 64)%Z.

(** Reduction of an integer to its [uint64] value. *)
Definition wrap (z : Z) : TableSet := (z mod modulus)%Z.

(** The values a [uint64] takes. *)
Definition is_uint64 (ts : Z) : Prop := (0 <= ts < modulus)%Z.

(** [func (ts TableSet) IsOverlapping(b TableSet) bool { return ts&b != 0 }] *)
Definition IsOverlapping (ts b : TableSet) : bool := negb (Z.land ts b =? 0)%Z.

(** [func (ts TableSet) IsSolvedBy(b TableSet) bool { return ts&b == ts }] *)
Definition IsSolvedBy (ts b : TableSet) : bool := (Z.land ts b =? ts)%Z.

(** The loop of [NumberOfTables]: [for ts > 0 { ts &= ts - 1; count++ }],
    at most [fuel] iterations. *)
Fixpoint NumberOfTables_loop (fuel : nat) (ts : TableSet) (count : nat) : option nat :=
  if (0 <? ts)%Z then
    match fuel with
    | O => None
    | S fuel' => NumberOfTables_loop fuel' (Z.land ts (wrap (ts - 1))) (S count)
    end
  else Some count.

Definition NumberOfTables (ts : TableSet) : option nat := NumberOfTables_loop 64 ts 0.

(** The loop of [TableOffset]: [for ts > 1 { ts = ts >> 1; offset++ }]. *)
Fixpoint TableOffset_loop (fuel : nat) (ts : TableSet) (offset : nat) : option nat :=
  if (1 <? ts)%Z then
    match fuel with
    | O => None
    | S fuel' => TableOffset_loop fuel' (Z.shiftr ts 1) (S offset)
    end
  else Some offset.

Definition TableOffset (ts : TableSet) : option nat := TableOffset_loop 64 ts 0.

(** [func (ts TableSet) Merge(other TableSet) TableSet { return ts | other }] *)
Definition Merge (ts other : TableSet) : TableSet := Z.lor ts other.

(** *** Table descriptions *)

Record ColumnInfo : Set := mkColumnInfo {
  ColumnInfo_Name : string;
  ColumnInfo_Type : querypb_Type
}.

(** [AliasedTable]; [Table] is a pointer that may be nil. *)
Record AliasedTable : Set := mkAliasedTable {
  tableName : string;
  ASTNode : AliasedTableExpr;
  Table : option vindexes.Table;
  isInfSchema : bool
}.

(** The interface [originable], of which the table descriptions call
    [tableSetFor] only. *)
Record originable : Set := mkOriginable {
  tableSetFor : AliasedTableExpr -> TableSet
}.

(** Modelled from the spec: the tri-state dependency result of section 3 and
    its constructors [createCertain] and [createUncertain], declared in a
    file of the package that is not at hand. [certain]: the column is proven
    to exist on this table, with a type; [uncertain]: it might belong to it;
    [nothing]: it is proven absent. *)
Inductive dependencies : Set :=
| certain (direct recursive : TableSet) (typ : querypb_Type)
| uncertain (direct recursive : TableSet)
| nothing.

Definition createCertain (direct recursive : TableSet) (qt : querypb_Type) : dependencies :=
  certain direct recursive qt.
Definition createUncertain (direct recursive : TableSet) : dependencies :=
  uncertain direct recursive.

(** The interface [TableInfo]: a value of it is the record of its methods,
    each already applied to the receiver. *)
Record TableInfo : Type := mkTableInfo {
  Matches : TableName -> bool;
  Authoritative : bool;
  Name : TableName + error;
  GetExpr : AliasedTableExpr;
  GetVindexTable : option vindexes.Table;
  GetColumns : list ColumnInfo;
  IsActualTable : bool;
  Dependencies : string -> originable -> dependencies + error;
  IsInfSchema : bool;
  GetExprFor : string -> Outcome (Expr + error);
  GetTables : originable -> TableSet
}.

(** [VindexTable]: a vindex and the description of its table. *)
Record VindexTable : Type := mkVindexTable {
  VindexTable_Table : TableInfo;
  VindexTable_Vindex : Vindex
}.

(** [ErrMultipleTables] *)
Definition ErrMultipleTables : error :=
  Errorf Code_INTERNAL "[BUG] should only be used for single tables".

(** One step of the first loop of [vindexTableToColumnInfo]: the column is
    appended and its name recorded. *)
Definition addCatalogColumn (acc : list ColumnInfo * gset string) (col : Column)
  : list ColumnInfo * gset string :=
  (acc.1 ++ [mkColumnInfo (ColIdent_String (Column_Name col)) (Column_Type col)],
   {[ ColIdent_String (Column_Name col) ]} ∪ acc.2).

(** One step of the inner loop over the columns of a vindex: a name already
    recorded is skipped, another one is appended without a type. *)
Definition addVindexColumn (acc : list ColumnInfo * gset string) (column : ColIdent)
  : list ColumnInfo * gset string :=
  let name := ColIdent_String column in
  if decide (name ∈ acc.2) then acc
  else (acc.1 ++ [mkColumnInfo name Type_NULL_TYPE], {[ name ]} ∪ acc.2).

(** [vindexTableToColumnInfo]; the map [nameMap], whose values are never read,
    is the set of its keys. *)
Definition vindexTableToColumnInfo (tbl : option vindexes.Table) : list ColumnInfo :=
  match tbl with
  | None => []
  | Some tbl =>
      let acc := fold_left addCatalogColumn (Columns tbl) ([], ∅) in
      if ColumnListAuthoritative tbl then acc.1
      else (fold_left
              (fun acc vindex => fold_left addVindexColumn (ColumnVindex_Columns vindex) acc)
              (ColumnVindexes tbl) acc).1
  end.

(** Methods of [*AliasedTable]. *)
Definition AliasedTable_GetColumns (a : AliasedTable) : list ColumnInfo :=
  vindexTableToColumnInfo (Table a).

Definition AliasedTable_GetExpr (a : AliasedTable) : AliasedTableExpr := ASTNode a.

Definition AliasedTable_GetVindexTable (a : AliasedTable) : option vindexes.Table := Table a.

Definition AliasedTable_Name (a : AliasedTable) : TableName + error :=
  AliasedTableExpr_TableName (ASTNode a).

Definition AliasedTable_Authoritative (a : AliasedTable) : bool :=
  match Table a with
  | None => false
  | Some tbl => ColumnListAuthoritative tbl
  end.

Definition AliasedTable_Matches (a : AliasedTable) (name : TableName) : bool :=
  String.eqb (tableName a) (TableIdent_String (TableName_Name name))
  && TableIdent_IsEmpty (TableName_Qualifier name).

Definition AliasedTable_GetTables (a : AliasedTable) (org : originable) : TableSet :=
  tableSetFor org (ASTNode a).

Definition AliasedTable_GetExprFor (a : AliasedTable) (s : string)
  : Outcome (Expr + error) :=
  Returned (inr (Errorf Code_INTERNAL ("Unknown column '" +:+ s +:+ "' in 'field list'"))).

Definition AliasedTable_IsInfSchema (a : AliasedTable) : bool := isInfSchema a.

Definition AliasedTable_IsActualTable (a : AliasedTable) : bool := true.

Section Folding.
(** [strings.EqualFold] of the Go library, equality of two texts under
    Unicode case folding. *)
Variable EqualFold : string -> string -> bool.

(** The scan of [depsForAliasedAndRealTables]. *)
Fixpoint scanColumns (colName : string) (ts : TableSet) (columns : list ColumnInfo)
  : option dependencies :=
  match columns with
  | [] => None
  | info :: rest =>
      if EqualFold (ColumnInfo_Name info) colName
      then Some (createCertain ts ts (ColumnInfo_Type info))
      else scanColumns colName ts rest
  end.

Definition depsForAliasedAndRealTables (colName : string) (org : originable)
    (node : AliasedTableExpr) (columns : list ColumnInfo) (authoritative : bool)
  : dependencies + error :=
  let ts := tableSetFor org node in
  match scanColumns colName ts columns with
  | Some deps => inl deps
  | None =>
      if authoritative then inl nothing
      else inl (createUncertain ts ts)
  end.

Definition AliasedTable_Dependencies (a : AliasedTable) (colName : string) (org : originable)
  : dependencies + error :=
  depsForAliasedAndRealTables colName org (ASTNode a)
    (AliasedTable_GetColumns a) (AliasedTable_Authoritative a).

(** An [AliasedTable] as a [TableInfo]. *)
Definition AliasedTable_TableInfo (a : AliasedTable) : TableInfo := {|
  Matches := AliasedTable_Matches a;
  Authoritative := AliasedTable_Authoritative a;
  Name := AliasedTable_Name a;
  GetExpr := AliasedTable_GetExpr a;
  GetVindexTable := AliasedTable_GetVindexTable a;
  GetColumns := AliasedTable_GetColumns a;
  IsActualTable := AliasedTable_IsActualTable a;
  Dependencies := AliasedTable_Dependencies a;
  IsInfSchema := AliasedTable_IsInfSchema a;
  GetExprFor := AliasedTable_GetExprFor a;
  GetTables := AliasedTable_GetTables a
|}.
End Folding.

(** A [VindexTable] as a [TableInfo]: every method but [Authoritative],
    [IsActualTable] and [GetExprFor] asks the wrapped description. *)
Definition VindexTable_TableInfo (v : VindexTable) : TableInfo := {|
  Matches := Matches (VindexTable_Table v);
  Authoritative := true;
  Name := Name (VindexTable_Table v);
  GetExpr := GetExpr (VindexTable_Table v);
  GetVindexTable := GetVindexTable (VindexTable_Table v);
  GetColumns := GetColumns (VindexTable_Table v);
  IsActualTable := true;
  Dependencies := Dependencies (VindexTable_Table v);
  IsInfSchema := IsInfSchema (VindexTable_Table v);
  GetExprFor := fun _ => Panicked "implement me";
  GetTables := GetTables (VindexTable_Table v)
|}.

(** *** The dependency cache *)

(** [ExprDependencies map[sqlparser.Expr]TableSet], keyed by [mapKey]: the
    nil map, the zero value of the type, or a map that has been made, with
    its entries. *)
Inductive ExprDependencies : Type :=
| nilDependencies
| Allocated (entries : gmap (positive + string) Z).

(** [d[k]] as a read: the nil map has no entry. *)
#[global] Instance ExprDependencies_lookup : Lookup (positive + string) Z ExprDependencies :=
  fun k d =>
    match d with
    | nilDependencies => None
    | Allocated entries => entries !! k
    end.

(** [map[sqlparser.Expr]TableSet{}]: a made map without entries. *)
#[global] Instance ExprDependencies_empty : Empty ExprDependencies := Allocated ∅.

(** What the Go runtime panics with on a store into the nil map. *)
Definition nilMapStore : string := "assignment to entry in nil map".

(** [d[k] = set], for a key [k] that has been hashed. *)
Definition store (d : ExprDependencies) (k : positive + string) (set : TableSet)
  : Outcome ExprDependencies :=
  match d with
  | nilDependencies => Panicked nilMapStore
  | Allocated entries => Returned (Allocated (<[ k := set ]> entries))
  end.

(** The entries of a map; the nil map has none. *)
Definition entriesOf (d : ExprDependencies) : gmap (positive + string) Z :=
  match d with
  | nilDependencies => ∅
  | Allocated entries => entries
  end.

(** Modelled from the spec: [validAsMapKey], declared in a file of the
    package that is not at hand: false on the "expression node types that
    cannot serve as a stable map key", the tuples. *)
Definition validAsMapKey (e : Expr) : bool :=
  match e with
  | ValTuple _ => false
  | _ => true
  end.

(** The visitor [Dependencies] hands to [sqlparser.Walk]; the captured
    variable [deps] is the state. A node that is no key is passed through;
    a cached node adds its set and closes its subtree. (The walk also meets
    nodes that are no expressions, which the visitor passes through in the
    same way; they are not in [Expr].) *)
Definition visitDependencies (d : ExprDependencies) (node : Expr) (deps : TableSet)
  : bool * TableSet :=
  if negb (validAsMapKey node) then (true, deps)
  else
    match mapKey node ≫= (d !!.) with
    | Some set => (false, Z.lor deps set)
    | None => (true, deps)
    end.

(** [func (d ExprDependencies) Dependencies(expr sqlparser.Expr) TableSet]:
    the set and the map after the call. The first statement, [d[expr]],
    hashes [expr], also when [d] is nil; the last one before the return,
    [d[expr] = deps], is a store, which the nil map refuses. *)
Definition ExprDependencies_Dependencies (d : ExprDependencies) (expr : Expr)
  : Outcome (TableSet * ExprDependencies) :=
  match mapKey expr with
  | None => Panicked unhashable
  | Some k =>
      match d !! k with
      | Some deps => Returned (deps, d)
      | None =>
          let deps := Walk (visitDependencies d) expr 0%Z in
          let* d' := store d k deps in
          Returned (deps, d')
      end
  end.

(** *** SemTable *)

(** [columnName], the key of [ColumnEqualities], as a pair. *)
Abbreviation columnName := (Z * string)%type.

(** [SemTable]; the fields no function below reads are left out.
    [Recursive] and [ColumnEqualities] are made maps, [NewSemTable] makes
    both, and the record holds their entries. [Direct] is a map that can be
    nil: [NewSemTable] leaves it so. *)
Record SemTable : Type := mkSemTable {
  Tables : list TableInfo;
  Recursive : gmap (positive + string) Z;
  Direct : ExprDependencies;
  ColumnEqualities : gmap columnName (list Expr)
}.

(** [func NewSemTable() *SemTable]: the composite literal names [Recursive]
    and [ColumnEqualities]; every other field has its zero value, so
    [Tables] is the nil slice and [Direct] the nil map. *)
Definition NewSemTable : SemTable :=
  mkSemTable [] ∅ nilDependencies ∅.

(** The loop of [TableSetFor]; [t == t2.GetExpr()] compares two pointers, and
    [1 << idx] is a shift of a [uint64]. *)
Fixpoint TableSetFor_loop (t : AliasedTableExpr) (idx : nat) (tables : list TableInfo)
  : TableSet :=
  match tables with
  | [] => 0%Z
  | t2 :: rest =>
      if (ate_addr t =? ate_addr (GetExpr t2))%positive
      then wrap (Z.shiftl 1 (Z.of_nat idx))
      else TableSetFor_loop t (S idx) rest
  end.

Definition TableSetFor (st : SemTable) (t : AliasedTableExpr) : TableSet :=
  TableSetFor_loop t 0 (Tables st).

(** [func (st *SemTable) TableInfoFor(id TableSet) (TableInfo, error)];
    [st.Tables[i]] panics when [i] is out of range. *)
Definition TableInfoFor (st : SemTable) (id : TableSet)
  : Outcome (TableInfo + error) :=
  match NumberOfTables id with
  | None => OutOfFuel
  | Some n =>
      if (1 <? n)%nat then Returned (inr ErrMultipleTables)
      else
        match TableOffset id with
        | None => OutOfFuel
        | Some offset =>
            match Tables st !! offset with
            | Some info => Returned (inl info)
            | None => Panicked "runtime error: index out of range"
            end
        end
  end.

(** [func (st *SemTable) RecursiveDeps(expr sqlparser.Expr) TableSet]: the
    receiver of [Dependencies] is the made map [st.Recursive], which is
    updated in place. *)
Definition RecursiveDeps (st : SemTable) (expr : Expr) : Outcome (TableSet * SemTable) :=
  let* (deps, d) := ExprDependencies_Dependencies (Allocated (Recursive st)) expr in
  Returned (deps, mkSemTable (Tables st) (entriesOf d) (Direct st) (ColumnEqualities st)).

(** [func (st *SemTable) DirectDeps(expr sqlparser.Expr) TableSet] *)

Definition DirectDeps (st : SemTable) (expr : Expr) : Outcome (TableSet * SemTable) :=
  let* (deps, d) := ExprDependencies_Dependencies (Direct st) expr in
  Returned (deps, mkSemTable (Tables st) (Recursive st) d (ColumnEqualities st)).

(** [func (st *SemTable) AddColumnEquality(colName *sqlparser.ColName, expr sqlparser.Expr)];
    a key that is not in the map reads as the nil slice. *)
Definition AddColumnEquality (st : SemTable) (colName : ColName) (expr : Expr)
  : Outcome SemTable :=
  let* (ts, st1) := DirectDeps st (ColNameExpr colName) in
  let columnName := (ts, ColIdent_String (ColName_Name colName)) in
  let elem := default [] (ColumnEqualities st1 !! columnName) in
  let elem := elem ++ [expr] in
  Returned (mkSemTable (Tables st1) (Recursive st1) (Direct st1)
              (<[ columnName := elem ]> (ColumnEqualities st1))).

(** [func (st *SemTable) GetExprAndEqualities(expr sqlparser.Expr) []sqlparser.Expr] *)
Definition GetExprAndEqualities (st : SemTable) (expr : Expr)
  : Outcome (list Expr * SemTable) :=
  let result := [expr] in
  match expr with
  | ColNameExpr c =>
      let* (table, st1) := DirectDeps st expr in
      let k := (table, ColIdent_String (ColName_Name c)) in
      Returned (result ++ default [] (ColumnEqualities st1 !! k), st1)
  | _ => Returned (result, st)
  end.

(** *** Scopes *)

(** [scope]; [selectStmt] is a pointer to the select statement of the
    block. *)
#[local] Unset Elimination Schemes.
Inductive scope : Type := mkScope {
  parent : option scope;
  selectStmt : option positive;
  tables : list TableInfo;
  isUnion : bool
}.
#[local] Set Elimination Schemes.

Definition newScope (parent : option scope) : scope := mkScope parent None [] false.

(** The loop of [addTable] over the tables of the scope: the error it
    returns with, if any. *)
Fixpoint findCollision (tblName : string) (tables : list TableInfo) : option error :=
  match tables with
  | [] => None
  | table :: rest =>
      match Name table with
      | inr err => Some err
      | inl name =>
          if String.eqb tblName (TableIdent_String (TableName_Name name))
          then Some (NewErrorf Code_INVALID_ARGUMENT NonUniqTable
                       ("Not unique table/alias: '"
                        +:+ TableIdent_String (TableName_Name name) +:+ "'"))
          else findCollision tblName rest
      end
  end.

(** [func (s *scope) addTable(info TableInfo) error]: the scope after the call
    and the error. *)
Definition addTable (s : scope) (info : TableInfo) : scope * option error :=
  match Name info with
  | inr err => (s, Some err)
  | inl name =>
      let tblName := TableIdent_String (TableName_Name name) in
      match findCollision tblName (tables s) with
      | Some err => (s, Some err)
      | None => (mkScope (parent s) (selectStmt s) (tables s ++ [info]) (isUnion s), None)
      end
  end.

(** *** The derived-table rewriter *)

(** The callback [RewriteDerivedExpression] hands to [sqlparser.Rewrite]. *)
Definition rewriteColName (vt : TableInfo) (node : Expr) : Outcome Applied :=
  match node with
  | ColNameExpr c =>
      let* found := GetExprFor vt (ColIdent_String (ColName_Name c)) in
      match found with
      | inr err => Returned (None, false)
      | inl exp => Returned (Some exp, false)
      end
  | _ => Returned (None, true)
  end.

(** [func RewriteDerivedExpression(expr sqlparser.Expr, vt TableInfo) (sqlparser.Expr, error)].
    [next] is the first free address of the heap. The result of [Rewrite] is
    dropped: the function returns [newExpr], the clone it has rewritten in
    place, and the nil error, on every path. *)
Definition RewriteDerivedExpression (expr : Expr) (vt : TableInfo) (next : positive)
  : Outcome (Expr + error) :=
  let newExpr := (CloneExpr expr next).1 in
  let* rewritten := Rewrite newExpr (rewriteColName vt) in
  Returned (inl (root rewritten)).

(** *** Decomposition of a set *)

(** The loop of [Constituents]:
    [for mask > 0 { maskLeft := mask & (mask - 1); constituent := mask ^ maskLeft;
    mask = maskLeft; result = append(result, constituent) }], at most [fuel]
    iterations. *)
Fixpoint Constituents_loop (fuel : nat) (mask : TableSet) (result : list TableSet)
  : option (list TableSet) :=
  if (0 <? mask)%Z then
    match fuel with
    | O => None
    | S fuel' =>
        let maskLeft := Z.land mask (wrap (mask - 1)) in
        let constituent := Z.lxor mask maskLeft in
        Constituents_loop fuel' maskLeft (result ++ [constituent])
    end
  else Some result.

(** [func (ts TableSet) Constituents() (result []TableSet)] *)
Definition Constituents (ts : TableSet) : option (list TableSet) := Constituents_loop 64 ts [].

(** *** More of SemTable *)

(** [func (st *SemTable) CopyDependencies(from, to sqlparser.Expr)]. In
    [st.Recursive[to] = st.RecursiveDeps(from)] the call comes first and the
    store, which hashes [to], second; the same for [st.Direct]. *)
Definition CopyDependencies (st : SemTable) (from to : Expr) : Outcome SemTable :=
  let* (recursive, st1) := RecursiveDeps st from in
  match mapKey to with
  | None => Panicked unhashable
  | Some k =>
      let st2 := mkSemTable (Tables st1) (<[ k := recursive ]> (Recursive st1)) (Direct st1)
                   (ColumnEqualities st1) in
      let* (direct, st3) := DirectDeps st2 from in
      let* d := store (Direct st3) k direct in
      Returned (mkSemTable (Tables st3) (Recursive st3) d (ColumnEqualities st3))
  end.

(** [func (st *SemTable) TableInfoForExpr(expr sqlparser.Expr) (TableInfo, error)]:
    the result and the table after the call, which has cached the set of
    [expr]. *)
Definition TableInfoForExpr (st : SemTable) (expr : Expr)
  : Outcome ((TableInfo + error) * SemTable) :=
  let* (deps, st1) := DirectDeps st expr in
  let* info := TableInfoFor st1 deps in
  Returned (info, st1).

(** A fragment of [sqlparser.SelectExpr], the entries of a projection list:
    pointers to a [StarExpr], an [AliasedExpr] or a [Nextval]. *)
Inductive SelectExpr : Set :=
| StarExpr (addr : positive) (TableName : TableName)
| AliasedExpr (addr : positive) (Expr : Expr) (As : ColIdent)
| Nextval (addr : positive) (Expr : Expr).

Definition notAliasedExpr : string :=
  "interface conversion: sqlparser.SelectExpr is not *sqlparser.AliasedExpr".

(** The loop of [AddExprs] over [cols]: the type assertion of [col] to a
    pointer to [AliasedExpr] panics on another entry, and the store into
    the made map [st.Recursive] hashes the expression. *)
Fixpoint AddExprs_loop (tableSet : TableSet) (cols : list SelectExpr)
  (d : gmap (positive + string) Z) : Outcome (gmap (positive + string) Z) :=
  match cols with
  | [] => Returned d
  | AliasedExpr _ e _ :: rest =>
      match mapKey e with
      | None => Panicked unhashable
      | Some k => AddExprs_loop tableSet rest (<[ k := tableSet ]> d)
      end
  | _ :: _ => Panicked notAliasedExpr
  end.

(** [func (st *SemTable) AddExprs(tbl *sqlparser.AliasedTableExpr, cols sqlparser.SelectExprs)] *)
Definition AddExprs (st : SemTable) (tbl : AliasedTableExpr) (cols : list SelectExpr)
  : Outcome SemTable :=
  let tableSet := TableSetFor st tbl in
  let* d := AddExprs_loop tableSet cols (Recursive st) in
  Returned (mkSemTable (Tables st) d (Direct st) (ColumnEqualities st)).

End semantics.

(** ** Package [stats] *)

Module stats.

(** The value of an [int64] after an operation that may overflow: the result
    is reduced to [[-2^63, 2^63)], as Go's two's complement arithmetic does. *)
Definition wrap64 (z : Z) : Z := ((z + 2 ^ 63) mod 2 ^ 64 - 2 ^ 63)%Z.

(** The values an [int64] takes. *)
Definition is_int64 (z : Z) : Prop := (- 2 ^ 63 <= z < 2 ^ 63)%Z.

(** [Counter]; [i] is the value of the [atomic.Int64], read and written here
    by one goroutine. *)
Record Counter : Set := mkCounter {
  i : Z;
  help : string
}.

(** What a call does outside the variable: [publish] registers a name, and the
    throttled logger [logCounterNegative] is offered a warning (whether it
    prints depends on the clock). *)
Inductive Event : Set :=
| Published (name : string)
| NegativeWarning.

(** [func NewCounter(name string, help string) *Counter] *)
Definition NewCounter (name help : string) : Counter * list Event :=
  let v := mkCounter 0 help in
  if decide (name <> EmptyString) then (v, [Published name]) else (v, []).

(** [func (v *Counter) Add(delta int64)] *)
Definition Counter_Add (v : Counter) (delta : Z) : Counter * list Event :=
  let events := if (delta <? 0)%Z then [NegativeWarning] else [] in
  (mkCounter (wrap64 (i v + delta)) (help v), events).

(** [func (v *Counter) Set(value int64)] *)
Definition Counter_Set (v : Counter) (value : Z) : Counter := mkCounter value (help v).

(** [func (v *Counter) Reset()] *)
Definition Counter_Reset (v : Counter) : Counter := mkCounter 0 (help v).

(** [func (v *Counter) Get() int64] *)
Definition Counter_Get (v : Counter) : Z := i v.

(** [func (v *Counter) Help() string] *)
Definition Counter_Help (v : Counter) : string := help v.

(** [Gauge] embeds a [Counter]. *)
Record Gauge : Set := mkGauge {
  Gauge_Counter : Counter
}.

(** [func NewGauge(name string, help string) *Gauge] *)
Definition NewGauge (name help : string) : Gauge * list Event :=
  let v := mkGauge (mkCounter 0 help) in
  if decide (name <> EmptyString) then (v, [Published name]) else (v, []).

(** [func (v *Gauge) Set(value int64)] *)
Definition Gauge_Set (v : Gauge) (value : Z) : Gauge :=
  mkGauge (mkCounter value (help (Gauge_Counter v))).

(** [func (v *Gauge) Add(delta int64)] *)
Definition Gauge_Add (v : Gauge) (delta : Z) : Gauge * list Event :=
  (mkGauge (mkCounter (wrap64 (i (Gauge_Counter v) + delta)) (help (Gauge_Counter v))), []).

(** [Get] and [Reset] of a [Gauge] are the promoted methods of its [Counter]. *)
Definition Gauge_Get (v : Gauge) : Z := Counter_Get (Gauge_Counter v).
Definition Gauge_Reset (v : Gauge) : Gauge := mkGauge (Counter_Reset (Gauge_Counter v)).

End stats.

(** ** Vocabulary of the specification *)

Import sqlparser vindexes semantics.

(** The number of ones among the binary digits of a number. *)
Fixpoint Ppopcount (p : positive) : nat :=
  match p with
  | xH => 1
  | xO q => Ppopcount q
  | xI q => S (Ppopcount q)
  end.

(** Population count of a [uint64]. *)
Definition popcount (z : Z) : nat :=
  match z with
  | Zpos p => Ppopcount p
  | _ => 0
  end.

(** The number of bits set among the [n] low bits of [z]. *)
Definition bitsSet (n : nat) (z : Z) : nat :=
  length (List.filter (fun i => Z.testbit z (Z.of_nat i)) (seq 0 n)).

(** The set that holds the table of ordinal [i] alone, as [TableSetFor] computes it. *)
Definition singleton (i : nat) : TableSet := wrap (Z.shiftl 1 (Z.of_nat i)).

(** [strings.EqualFold] on ASCII texts: two texts are equal when they have
    the same letters up to case. *)
Definition asciiLower (c : Ascii.ascii) : Ascii.ascii :=
  let n := Ascii.nat_of_ascii c in
  if (65 <=? n) && (n <=? 90) then Ascii.ascii_of_nat (n + 32) else c.

Fixpoint ascii_EqualFold (s t : string) : bool :=
  match s, t with
  | EmptyString, EmptyString => true
  | String a s', String b t' => Ascii.eqb (asciiLower a) (asciiLower b) && ascii_EqualFold s' t'
  | _, _ => false
  end.

(** The context of a finished analysis: [tableSetFor] is answered from the
    tables of the [SemTable]. *)
Definition SemTable_originable (st : SemTable) : originable :=
  mkOriginable (TableSetFor st).

(** The table of ordinal [idx] of [infos] is the first one whose AST node is [t]. *)
Definition registeredAt (infos : list TableInfo) (t : AliasedTableExpr) (idx : nat) : Prop :=
  (exists info, infos !! idx = Some info /\ ate_addr (GetExpr info) = ate_addr t) /\
  (forall j info, j < idx -> infos !! j = Some info -> ate_addr (GetExpr info) <> ate_addr t).

(** The names of a column list. *)
Definition columnNames (columns : list ColumnInfo) : list string :=
  map ColumnInfo_Name columns.

(** The names of the catalog columns of a table, as written. *)
Definition catalogNames (tbl : vindexes.Table) : list string :=
  map (fun col => ColIdent_String (Column_Name col)) (Columns tbl).

(** *** Inputs of the examples *)

Definition noQualifier : TableIdent := mkTableIdent EmptyString.

(** The AST node of [FROM name] at address [addr]. *)
Definition tableExpr (addr : positive) (name : string) : AliasedTableExpr :=
  mkAliasedTableExpr addr (SimpleTableName (mkTableName (mkTableIdent name) noQualifier)) noQualifier.

(** A table of the catalog with the columns [id] (of type 263) and [name] (of
    type 6165). *)
Definition userColumns : list Column :=
  [mkColumn (mkColIdent "id") 263%Z; mkColumn (mkColIdent "name") 6165%Z].

Definition userTable (authoritative : bool) : AliasedTable :=
  mkAliasedTable "user" (tableExpr 1 "user")
    (Some (mkTable (mkTableIdent "user") userColumns [] authoritative)) false.

(** A table whose catalog lists the column [ID] and whose routing vindex is
    on the column [id]. *)
Definition routedTable : AliasedTable :=
  mkAliasedTable "t" (tableExpr 1 "t")
    (Some (mkTable (mkTableIdent "t") [mkColumn (mkColIdent "ID") 263%Z]
             [mkColumnVindex [mkColIdent "id"]] false)) false.

(** A table whose catalog lists the column [id] twice. *)
Definition repeatedTable : AliasedTable :=
  mkAliasedTable "t" (tableExpr 1 "t")
    (Some (mkTable (mkTableIdent "t")
             [mkColumn (mkColIdent "id") 263%Z; mkColumn (mkColIdent "id") 263%Z] [] true)) false.

(** No two entries of a column list have names that [EqualFold] equates. *)
Definition foldDistinct (EqualFold : string -> string -> bool) (columns : list ColumnInfo) : Prop :=
  forall i j ci cj, i <> j -> columns !! i = Some ci -> columns !! j = Some cj ->
    EqualFold (ColumnInfo_Name ci) (ColumnInfo_Name cj) = false.

(** What the loops of [vindexTableToColumnInfo] maintain: the names of the
    list are pairwise different as written and [nameMap] holds exactly them. *)
Definition namesRecorded (acc : list ColumnInfo * gset string) : Prop :=
  NoDup (columnNames acc.1) /\ forall name, name ∈ acc.2 <-> name ∈ columnNames acc.1.

(** The equalities recorded under a key of [ColumnEqualities]; a key that is
    not in the map reads as the empty list. *)
Definition recorded (st : SemTable) (k : Z * string) : list Expr :=
  default [] (ColumnEqualities st !! k).

(** The column reference [name] at address [addr]. *)
Definition colRef (addr : positive) (name : string) : ColName :=
  mkColName addr (mkColIdent name) (mkTableName noQualifier noQualifier).

(** The table [i] of a statement that names many tables: its name is the
    character of code [48 + i], its AST node is at address [i + 1]. *)
Definition numberedName (i : nat) : string :=
  String (Ascii.ascii_of_nat (48 + i)) EmptyString.

Definition numberedTable (i : nat) : TableInfo :=
  AliasedTable_TableInfo ascii_EqualFold
    (mkAliasedTable (numberedName i) (tableExpr (Pos.of_succ_nat i) (numberedName i)) None false).

Definition numberedTables (n : nat) : list TableInfo := map numberedTable (seq 0 n).

(** The table [user] as a [TableInfo]. *)
Definition userInfo : TableInfo := AliasedTable_TableInfo ascii_EqualFold (userTable true).

Definition unknownColumn (s : string) : error :=
  Errorf Code_INTERNAL ("Unknown column '" +:+ s +:+ "' in 'field list'").

(** The expression [id + 42] of the example of section 8. *)
Definition idPlus42 : Expr :=
  BinaryExpr 20 "+" (ColNameExpr (colRef 21 "id")) (Literal 22 "42").

(** Modelled from the spec: the derived table [(SELECT id+42 AS foo FROM user) AS d]
    of section 8 as a [TableInfo]; the derived variant is declared in a file of
    the package that is not at hand. [GetExprFor] returns the projection
    behind an exposed column and the unknown-column error for another name. *)
Definition derivedInfo : TableInfo := {|
  Matches := fun name =>
    String.eqb "d" (TableIdent_String (TableName_Name name))
    && TableIdent_IsEmpty (TableName_Qualifier name);
  Authoritative := true;
  Name := inl (mkTableName (mkTableIdent "d") noQualifier);
  GetExpr := mkAliasedTableExpr 7 DerivedTable (mkTableIdent "d");
  GetVindexTable := None;
  GetColumns := [mkColumnInfo "foo" Type_NULL_TYPE];
  IsActualTable := false;
  Dependencies := fun _ _ => inl nothing;
  IsInfSchema := false;
  GetExprFor := fun s =>
    if String.eqb s "foo" then Returned (inl idPlus42)
    else Returned (inr (unknownColumn s));
  GetTables := fun org => tableSetFor org (mkAliasedTableExpr 7 DerivedTable (mkTableIdent "d"))
|}.

(** The predicate [name > 0] on the column [name], at the addresses 1 to 3. *)
Definition greaterThanZero (name : string) : Expr :=
  ComparisonExpr 1 ">" (ColNameExpr (colRef 2 name)) (Literal 3 "0").



(** The tuple [(a)] of the column [a], and the predicate [b IN (a)]. *)
Definition tupleOfA : Expr := ValTuple [ColNameExpr (colRef 1 "a")].

Definition bInTuple : Expr := ComparisonExpr 5 "in" (ColNameExpr (colRef 2 "b")) tupleOfA.

(** Induction on expressions, with the elements of a tuple as subterms. *)
Section ExprInduction.
Variable P : Expr -> Prop.
Hypothesis HColName : forall c, P (ColNameExpr c).
Hypothesis HLiteral : forall a lit, P (Literal a lit).
Hypothesis HBinary : forall a op l r, P l -> P r -> P (BinaryExpr a op l r).
Hypothesis HComparison : forall a op l r, P l -> P r -> P (ComparisonExpr a op l r).
Hypothesis HNot : forall a e, P e -> P (NotExpr a e).
Hypothesis HArgument : forall s, P (Argument s).
Hypothesis HValTuple : forall es, Forall P es -> P (ValTuple es).

Fixpoint Expr_ind (e : Expr) : P e :=
  match e with
  | ColNameExpr c => HColName c
  | Literal a lit => HLiteral a lit
  | BinaryExpr a op l r => HBinary a op l r (Expr_ind l) (Expr_ind r)
  | ComparisonExpr a op l r => HComparison a op l r (Expr_ind l) (Expr_ind r)
  | NotExpr a e1 => HNot a e1 (Expr_ind e1)
  | Argument s => HArgument s
  | ValTuple es =>
      HValTuple es
        ((fix all (es : list Expr) : Forall P es :=
            match es with
            | [] => List.Forall_nil P
            | e1 :: es1 => List.Forall_cons P e1 es1 (Expr_ind e1) (all es1)
            end) es)
  end.
End ExprInduction.

(** *** Vocabulary of the further properties *)

(** The position of the lowest one among the binary digits of a number. *)
Fixpoint lowestBit (p : positive) : nat :=
  match p with
  | xO q => S (lowestBit q)
  | _ => 0
  end.

(** The union of a list of sets. *)
Definition mergeAll (l : list TableSet) : TableSet := fold_right Merge 0%Z l.

(** A list of sets is strictly increasing. *)
Definition increasing (l : list TableSet) : Prop := StronglySorted Z.lt l.

(** Some table of [infos] has the AST node [t]. *)
Definition registered (infos : list TableInfo) (t : AliasedTableExpr) : Prop :=
  exists info, info ∈ infos /\ ate_addr (GetExpr info) = ate_addr t.

(** The tables [infos] have the names [names], in this order. *)
Definition namedAs (infos : list TableInfo) (names : list string) : Prop :=
  Forall2 (fun info name =>
             exists tn, Name info = inl tn /\ TableIdent_String (TableName_Name tn) = name)
          infos names.

(** The error of [addTable] for a name that is in the scope already. *)
Definition notUnique (name : string) : error :=
  NewErrorf Code_INVALID_ARGUMENT NonUniqTable ("Not unique table/alias: '" +:+ name +:+ "'").

(** The catalog columns of a table as column descriptions. *)
Definition catalogColumns (tbl : vindexes.Table) : list ColumnInfo :=
  map (fun col => mkColumnInfo (ColIdent_String (Column_Name col)) (Column_Type col))
      (Columns tbl).

(** The names of the columns of the routing vindexes of a table, as written. *)
Definition vindexNames (tbl : vindexes.Table) : list string :=
  flat_map (fun vindex => map ColIdent_String (ColumnVindex_Columns vindex))
           (ColumnVindexes tbl).

(** What the second loop of [vindexTableToColumnInfo] has appended to [acc]
    when it has come to [acc']: columns without type, under names that were
    not recorded before and that are all recorded now. *)
Definition appended (names : list string) (acc acc' : list ColumnInfo * gset string) : Prop :=
  exists extra,
    acc'.1 = acc.1 ++ extra /\
    Forall (fun c => ColumnInfo_Type c = Type_NULL_TYPE
                     /\ ColumnInfo_Name c ∈ names /\ ColumnInfo_Name c ∉ acc.2) extra /\
    (forall name, name ∈ acc'.2 <-> name ∈ acc.2 \/ name ∈ columnNames extra).

(** Every set of the cache is a 64-bit set. *)
Definition cacheOfSets (d : ExprDependencies) : Prop :=
  forall k set, d !! k = Some set -> is_uint64 set.

(** The key under which [AddExprs] stores for an entry of a projection list;
    none for an entry that makes it panic. *)
Definition selectKey (col : SelectExpr) : option (positive + string) :=
  match col with
  | AliasedExpr _ e _ => mapKey e
  | _ => None
  end.

(** An expression holds a column reference. *)
Fixpoint containsColName (e : Expr) : bool :=
  match e with
  | ColNameExpr _ => true
  | Literal _ _ | Argument _ => false
  | BinaryExpr _ _ l r | ComparisonExpr _ _ l r => containsColName l || containsColName r
  | NotExpr _ e1 => containsColName e1
  | ValTuple es =>
      (fix containsList (es : list Expr) : bool :=
         match es with
         | [] => false
         | e1 :: es1 => containsColName e1 || containsList es1
         end) es
  end.

(** A sequence of [Add] calls on a counter, and on a gauge: the variable and
    the events of all calls. *)
Definition Counter_AddAll (v : stats.Counter) (deltas : list Z) : stats.Counter * list stats.Event :=
  fold_left (fun acc delta =>
               let '(v', events) := stats.Counter_Add acc.1 delta in (v', acc.2 ++ events))
            deltas (v, []).

Definition Gauge_AddAll (v : stats.Gauge) (deltas : list Z) : stats.Gauge * list stats.Event :=
  fold_left (fun acc delta =>
               let '(v', events) := stats.Gauge_Add acc.1 delta in (v', acc.2 ++ events))
            deltas (v, []).

(** The sum of a list of integers. *)
Definition sumZ (l : list Z) : Z := fold_right Z.add 0%Z l.

(** ** The nil map and the made map *)

Lemma lookup_Allocated (entries : gmap (positive + string) Z) (k : positive + string) :
  Allocated entries !! k = entries !! k.
Proof. reflexivity. Qed.

(** The visitor passes through an expression that has no entry. *)
Lemma visitDependencies_miss (d : ExprDependencies) (e : Expr) (deps : TableSet) :
  (forall k, mapKey e = Some k -> d !! k = None) -> visitDependencies d e deps = (true, deps).
Proof.
  intros Hmiss. unfold visitDependencies.
  destruct (validAsMapKey e); [|reflexivity]. cbn.
  destruct (mapKey e) as [k|]; [|reflexivity]. cbn. now rewrite (Hmiss k eq_refl).
Qed.

(** A cached expression is answered from the map, which is left as it is;
    no store takes place. *)
Lemma Dependencies_hit (d : ExprDependencies) (e : Expr) (k : positive + string)
    (set : TableSet) :
  mapKey e = Some k -> d !! k = Some set ->
  ExprDependencies_Dependencies d e = Returned (set, d).
Proof. intros Hk Hd. unfold ExprDependencies_Dependencies. now rewrite Hk, Hd. Qed.

(** On a made map, [Dependencies] of an expression that can be hashed
    returns; the map stays a made map, the set it returns is in the map
    afterwards, the other entries are as before, and a set that was cached is
    returned with the map unchanged. *)
Lemma Dependencies_hashable (d : gmap (positive + string) Z) (e : Expr) (k : positive + string) :
  mapKey e = Some k ->
  exists set d',
    ExprDependencies_Dependencies (Allocated d) e = Returned (set, Allocated d') /\
    d' !! k = Some set /\
    (forall k', k' <> k -> d' !! k' = d !! k') /\
    (forall set0, d !! k = Some set0 -> set = set0 /\ d' = d).
Proof.
  intros Hk. unfold ExprDependencies_Dependencies. rewrite Hk, lookup_Allocated.
  destruct (d !! k) as [set|] eqn:Hd.
  - exists set, d. repeat split; [exact Hd | congruence].
  - eexists _, _. cbn [store bind]. repeat split.
    + apply lookup_insert_eq.
    + intros k' Hne. now apply lookup_insert_ne.
    + discriminate.
    + discriminate.
Qed.

(** On the nil map every expression that can be hashed is a miss, and the
    store that ends the miss panics. *)
Lemma Dependencies_nilDependencies (e : Expr) (k : positive + string) :
  mapKey e = Some k ->
  ExprDependencies_Dependencies nilDependencies e = Panicked nilMapStore.
Proof. intros Hk. unfold ExprDependencies_Dependencies. now rewrite Hk. Qed.
(** ** The table-set algebra *)

Lemma wrap_small z : is_uint64 z -> wrap z = z.
Proof. intros H. apply Z.mod_small. exact H. Qed.

Lemma modulus_pos : (0 < modulus)%Z.
Proof. reflexivity. Qed.

Lemma land_uint64 a b : is_uint64 a -> (0 <= b)%Z -> is_uint64 (Z.land a b).
Proof.
  intros [Ha0 Ha1] Hb. split; [apply Z.land_nonneg; now left|].
  destruct (Z.eq_dec (Z.land a b) 0%Z) as [->|Hne]; [reflexivity|].
  assert (0 <= Z.land a b)%Z by (apply Z.land_nonneg; now left).
  assert (0 < a)%Z by (destruct (Z.eq_dec a 0%Z) as [->|]; [now rewrite Z.land_0_l in Hne | lia]).
  apply Z.log2_lt_pow2; [lia|].
  pose proof (Z.log2_land a b Ha0 Hb).
  assert (Z.log2 a < 64)%Z by (apply Z.log2_lt_pow2; [lia | exact Ha1]).
  lia.
Qed.

Lemma Pos_land_diag p : Pos.land p p = Npos p.
Proof.
  induction p as [p IH|p IH|]; [| |reflexivity].
  - change (Pos.land p~1 p~1) with (Pos.Nsucc_double (Pos.land p p)). now rewrite IH.
  - change (Pos.land p~0 p~0) with (Pos.Ndouble (Pos.land p p)). now rewrite IH.
Qed.

(** Clearing the lowest one of an even number is clearing it in its half. *)
Lemma land_pred_even p :
  Z.land (Zpos p~0) (Zpos p~0 - 1) = Z.double (Z.land (Zpos p) (Zpos p - 1)).
Proof.
  destruct p as [q|q|]; [| |reflexivity].
  - change (Z.of_N (Pos.Ndouble (Pos.Ndouble (Pos.land q q)))
            = Z.double (Z.of_N (Pos.Ndouble (Pos.land q q)))).
    now destruct (Pos.Ndouble (Pos.land q q)).
  - change (Z.of_N (Pos.Ndouble (Pos.land q~0 (Pos.pred_double q)))
            = Z.double (Z.of_N (Pos.land q~0 (Pos.pred_double q)))).
    now destruct (Pos.land q~0 (Pos.pred_double q)).
Qed.

Lemma popcount_double z : popcount (Z.double z) = popcount z.
Proof. destruct z; reflexivity. Qed.

(** One step of Kernighan's loop removes exactly one table. *)
Lemma popcount_land_pred p :
  popcount (Z.land (Zpos p) (Zpos p - 1)) = Nat.pred (Ppopcount p).
Proof.
  induction p as [p IH|p IH|]; [| |reflexivity].
  - change (popcount (Z.of_N (Pos.Ndouble (Pos.land p p))) = Ppopcount p).
    now rewrite Pos_land_diag.
  - rewrite land_pred_even, popcount_double. exact IH.
Qed.

Lemma Ppopcount_pos p : 1 <= Ppopcount p.
Proof. induction p; simpl; lia. Qed.

Lemma Ppopcount_bits (n : nat) : forall p, (Zpos p < 2 ^ Z.of_nat n)%Z -> Ppopcount p <= n.
Proof.
  induction n as [|n IH]; intros p Hp.
  - change (2 ^ Z.of_nat 0)%Z with 1%Z in Hp. lia.
  - rewrite Nat2Z.inj_succ, Z.pow_succ_r in Hp by lia.
    destruct p as [q|q|]; simpl.
    + assert (Ppopcount q <= n) by (apply IH; lia). lia.
    + assert (Ppopcount q <= n) by (apply IH; lia). lia.
    + lia.
Qed.

Lemma popcount_uint64 ts : is_uint64 ts -> popcount ts <= 64.
Proof.
  intros [H0 H1]. destruct ts as [|p|p]; simpl; [lia| |lia].
  apply Ppopcount_bits. exact H1.
Qed.

Lemma NumberOfTables_loop_popcount (fuel : nat) :
  forall ts count, is_uint64 ts -> popcount ts <= fuel ->
    NumberOfTables_loop fuel ts count = Some (count + popcount ts).
Proof.
  induction fuel as [|fuel IH]; intros ts count Hts Hfuel.
  - destruct ts as [|p|p]; simpl in *.
    + f_equal. lia.
    + pose proof (Ppopcount_pos p). lia.
    + f_equal. lia.
  - destruct ts as [|p|p]; [simpl; f_equal; lia | | simpl; f_equal; lia].
    cbn [NumberOfTables_loop]. change (0 <? Z.pos p)%Z with true. cbn iota.
    assert (Hpred : is_uint64 (Z.pos p - 1)) by (unfold is_uint64 in *; lia).
    rewrite (wrap_small _ Hpred).
    assert (Hland : is_uint64 (Z.land (Z.pos p) (Z.pos p - 1))).
    { apply land_uint64; [exact Hts | lia]. }
    rewrite IH; [| exact Hland |].
    + f_equal. rewrite popcount_land_pred. simpl popcount.
      pose proof (Ppopcount_pos p). lia.
    + rewrite popcount_land_pred. simpl in Hfuel. lia.
Qed.

(** [NumberOfTables] returns, and returns the population count. *)
Lemma NumberOfTables_popcount ts : is_uint64 ts -> NumberOfTables ts = Some (popcount ts).
Proof.
  intros H. unfold NumberOfTables.
  rewrite NumberOfTables_loop_popcount; [reflexivity | exact H | apply popcount_uint64, H].
Qed.

(** The population count is the number of bits set. *)
Lemma bitsSet_succ n z :
  bitsSet (S n) z = (if Z.testbit z 0 then 1 else 0) + bitsSet n (Z.div2 z).
Proof.
  unfold bitsSet. rewrite <- cons_seq. cbn [List.filter]. change (Z.of_nat 0) with 0%Z.
  assert (H : length (List.filter (fun i => Z.testbit z (Z.of_nat i)) (seq 1 n))
              = length (List.filter (fun i => Z.testbit (Z.div2 z) (Z.of_nat i)) (seq 0 n))).
  { rewrite <- fmap_S_seq. generalize (seq 0 n) as l. induction l as [|i l IH]; [reflexivity|].
    cbn [fmap list_fmap List.filter].
    rewrite Z.div2_spec, Z.shiftr_spec by lia.
    replace (Z.of_nat i + 1)%Z with (Z.of_nat (S i)) by lia.
    destruct (Z.testbit z (Z.of_nat (S i))); cbn [length]; now rewrite IH. }
  destruct (Z.testbit z 0); cbn [length]; rewrite H; reflexivity.
Qed.

Lemma popcount_bitsSet (n : nat) : forall z, (0 <= z < 2 ^ Z.of_nat n)%Z -> popcount z = bitsSet n z.
Proof.
  induction n as [|n IH]; intros z Hz.
  - change (2 ^ Z.of_nat 0)%Z with 1%Z in Hz. assert (z = 0%Z) as -> by lia. reflexivity.
  - rewrite Nat2Z.inj_succ, Z.pow_succ_r in Hz by lia.
    rewrite bitsSet_succ, <- IH.
    + destruct z as [|[q|q|]|]; try reflexivity. lia.
    + destruct z as [|[q|q|]|]; cbn; lia.
Qed.

Lemma singleton_pow2 (i : nat) : i < 64 -> singleton i = (2 ^ Z.of_nat i)%Z.
Proof.
  intros Hi. unfold singleton. rewrite Z.shiftl_1_l. apply wrap_small.
  split; [apply Z.pow_nonneg; lia|].
  unfold modulus. apply Z.pow_lt_mono_r; lia.
Qed.

Lemma singleton_disjoint (i j : nat) :
  i < 64 -> j < 64 -> i <> j -> Z.land (singleton i) (singleton j) = 0%Z.
Proof.
  intros Hi Hj Hne. rewrite !singleton_pow2 by assumption.
  apply Z.bits_inj'. intros n Hn.
  rewrite Z.land_spec, Z.bits_0, !Z.pow2_bits_eqb by lia.
  destruct (Z.eqb_spec (Z.of_nat i) n), (Z.eqb_spec (Z.of_nat j) n); try reflexivity; lia.
Qed.

(** C7: on 64-bit table sets, [IsOverlapping a b] holds exactly when [a & b] is
    not zero, [IsSolvedBy a b] exactly when [a & b] is [a], [NumberOfTables a]
    returns the population count of [a], the number of its 64 bits that are
    set; hence every set is solved by itself and two singleton sets of
    different ordinals do not overlap. *)
Theorem tableset_algebra_laws (a b : TableSet) :
  is_uint64 a -> is_uint64 b ->
  (IsOverlapping a b = true <-> Z.land a b <> 0%Z) /\
  (IsSolvedBy a b = true <-> Z.land a b = a) /\
  NumberOfTables a = Some (popcount a) /\
  popcount a = bitsSet 64 a /\
  IsSolvedBy a a = true /\
  (forall i j : nat, i < 64 -> j < 64 -> i <> j ->
     IsOverlapping (singleton i) (singleton j) = false).
Proof.
  intros Ha Hb. repeat split.
  - unfold IsOverlapping. intros H Heq. rewrite Heq in H. discriminate.
  - unfold IsOverlapping. intros H. apply negb_true_iff, Z.eqb_neq, H.
  - unfold IsSolvedBy. apply Z.eqb_eq.
  - unfold IsSolvedBy. apply Z.eqb_eq.
  - apply NumberOfTables_popcount, Ha.
  - apply popcount_bitsSet, Ha.
  - unfold IsSolvedBy. rewrite Z.land_diag. apply Z.eqb_refl.
  - intros i j Hi Hj Hne. unfold IsOverlapping.
    rewrite singleton_disjoint by assumption. reflexivity.
Qed.

Lemma tableset_algebra_laws_witness :
  (IsOverlapping 5%Z 3%Z = true <-> Z.land 5 3 <> 0%Z) /\
  (IsSolvedBy 5%Z 3%Z = true <-> Z.land 5 3 = 5%Z) /\
  NumberOfTables 5%Z = Some (popcount 5) /\
  popcount 5 = bitsSet 64 5 /\
  IsSolvedBy 5%Z 5%Z = true /\
  (forall i j : nat, i < 64 -> j < 64 -> i <> j ->
     IsOverlapping (singleton i) (singleton j) = false).
Proof. apply (tableset_algebra_laws 5%Z 3%Z); unfold is_uint64, modulus; lia. Defined.

(** ** Table descriptions *)

Lemma TableSetFor_loop_registered (t : AliasedTableExpr) :
  forall infos base idx, registeredAt infos t idx ->
    TableSetFor_loop t base infos = wrap (Z.shiftl 1 (Z.of_nat (base + idx))).
Proof.
  induction infos as [|t2 rest IH]; intros base idx [[info [Hin Haddr]] Hfirst].
  - rewrite lookup_nil in Hin. discriminate.
  - cbn [TableSetFor_loop]. destruct idx as [|idx].
    + cbn in Hin. injection Hin as ->. rewrite <- Haddr, Pos.eqb_refl.
      now rewrite Nat.add_0_r.
    + assert (Hne : ate_addr (GetExpr t2) <> ate_addr t) by (apply (Hfirst 0); [lia | reflexivity]).
      destruct (Pos.eqb_spec (ate_addr t) (ate_addr (GetExpr t2))) as [Heq|_]; [congruence|].
      rewrite (IH (S base) idx).
      * do 3 f_equal. lia.
      * split; [exists info; split; assumption|].
        intros j info' Hj Hl. apply (Hfirst (S j)); [lia | exact Hl].
Qed.

(** A registered table of ordinal below 64 has its singleton set. *)
Lemma TableSetFor_registered st t idx :
  registeredAt (Tables st) t idx -> TableSetFor st t = singleton idx.
Proof. intros H. unfold TableSetFor. now rewrite (TableSetFor_loop_registered t _ 0 idx H). Qed.

Section Scan.
Variable EqualFold : string -> string -> bool.

Lemma scanColumns_first colName ts before info after :
  Forall (fun c => EqualFold (ColumnInfo_Name c) colName = false) before ->
  EqualFold (ColumnInfo_Name info) colName = true ->
  scanColumns EqualFold colName ts (before ++ info :: after)
  = Some (certain ts ts (ColumnInfo_Type info)).
Proof.
  intros Hbefore Hinfo. induction Hbefore as [|c before Hc _ IH]; cbn.
  - now rewrite Hinfo.
  - now rewrite Hc.
Qed.

Lemma scanColumns_some colName ts columns :
  (exists info, info ∈ columns /\ EqualFold (ColumnInfo_Name info) colName = true) ->
  exists info, info ∈ columns /\ EqualFold (ColumnInfo_Name info) colName = true /\
    scanColumns EqualFold colName ts columns = Some (certain ts ts (ColumnInfo_Type info)).
Proof.
  induction columns as [|c columns IH]; intros [info [Hin Hfold]].
  - inversion Hin.
  - cbn. destruct (EqualFold (ColumnInfo_Name c) colName) eqn:Hc.
    + exists c. repeat split; [left | exact Hc].
    + destruct IH as [info' [Hin' [Hfold' Hscan]]].
      * exists info. split; [|exact Hfold].
        apply elem_of_cons in Hin as [->|Hin]; [congruence | exact Hin].
      * exists info'. repeat split; [now right | exact Hfold' | exact Hscan].
Qed.

Lemma scanColumns_none colName ts columns :
  (forall info, info ∈ columns -> EqualFold (ColumnInfo_Name info) colName = false) ->
  scanColumns EqualFold colName ts columns = None.
Proof.
  induction columns as [|c columns IH]; intros Hall; [reflexivity|].
  cbn. rewrite (Hall c) by left. apply IH. intros info Hin. apply Hall. now right.
Qed.

(** C3: [Dependencies] of an aliased table scans the column list of the table
    from its head, comparing names with [strings.EqualFold]. The first column
    that matches makes the result Certain, with the type of that column and
    the set [ts] the context gives the table, which is the singleton set of
    the table when the table is registered with an ordinal below 64. When no column matches, the result
    is Absent for an authoritative table and Uncertain otherwise. No case
    returns an error. *)
Theorem aliased_dependencies_scan (a : AliasedTable) (colName : string) (org : originable) :
  let ts := tableSetFor org (ASTNode a) in
  let columns := AliasedTable_GetColumns a in
  let matching info := EqualFold (ColumnInfo_Name info) colName in
  (forall before info after,
      columns = before ++ info :: after ->
      Forall (fun c => matching c = false) before -> matching info = true ->
      AliasedTable_Dependencies EqualFold a colName org
      = inl (certain ts ts (ColumnInfo_Type info))) /\
  ((exists info, info ∈ columns /\ matching info = true) ->
   exists info, info ∈ columns /\ matching info = true /\
     AliasedTable_Dependencies EqualFold a colName org
     = inl (certain ts ts (ColumnInfo_Type info))) /\
  ((forall info, info ∈ columns -> matching info = false) ->
   AliasedTable_Authoritative a = true ->
   AliasedTable_Dependencies EqualFold a colName org = inl nothing) /\
  ((forall info, info ∈ columns -> matching info = false) ->
   AliasedTable_Authoritative a = false ->
   AliasedTable_Dependencies EqualFold a colName org = inl (uncertain ts ts)) /\
  (forall st idx,
      org = SemTable_originable st -> registeredAt (Tables st) (ASTNode a) idx -> idx < 64 ->
      ts = (2 ^ Z.of_nat idx)%Z).
Proof.
  intros ts columns matching.
  unfold AliasedTable_Dependencies, depsForAliasedAndRealTables.
  fold ts. fold columns. repeat split.
  - intros before info after -> Hbefore Hinfo.
    now rewrite (scanColumns_first colName ts before info after Hbefore Hinfo).
  - intros Hex. destruct (scanColumns_some colName ts columns Hex) as [info [Hin [Hfold Hscan]]].
    exists info. repeat split; [exact Hin | exact Hfold | now rewrite Hscan].
  - intros Hall Hauth. now rewrite (scanColumns_none colName ts columns Hall), Hauth.
  - intros Hall Hauth. now rewrite (scanColumns_none colName ts columns Hall), Hauth.
  - intros st idx -> Hreg Hidx. subst ts. cbn.
    rewrite <- (singleton_pow2 idx Hidx). apply TableSetFor_registered, Hreg.
Qed.

End Scan.

(** The example of the specification: an authoritative table with the columns
    [id] and [name] resolves [ID] to Certain with the type of [id] and
    [missing] to Absent; the same table, not authoritative, resolves [missing]
    to Uncertain. *)
Lemma aliased_dependencies_scan_witness :
  let st authoritative :=
    mkSemTable [AliasedTable_TableInfo ascii_EqualFold (userTable authoritative)] ∅ ∅ ∅ in
  AliasedTable_Dependencies ascii_EqualFold (userTable true) "ID" (SemTable_originable (st true))
  = inl (certain 1%Z 1%Z 263%Z) /\
  AliasedTable_Dependencies ascii_EqualFold (userTable true) "missing" (SemTable_originable (st true))
  = inl nothing /\
  AliasedTable_Dependencies ascii_EqualFold (userTable false) "missing" (SemTable_originable (st false))
  = inl (uncertain 1%Z 1%Z).
Proof.
  intros st. split; [|split].
  - apply (proj1 (aliased_dependencies_scan ascii_EqualFold (userTable true) "ID"
                    (SemTable_originable (st true)))
             [] (mkColumnInfo "id" 263%Z) [mkColumnInfo "name" 6165%Z]);
      [vm_compute; reflexivity | constructor | reflexivity].
  - apply (proj1 (proj2 (proj2 (aliased_dependencies_scan ascii_EqualFold (userTable true)
                                  "missing" (SemTable_originable (st true)))))).
    + intros info Hin. vm_compute in Hin.
      repeat (apply elem_of_cons in Hin as [->|Hin]; [reflexivity|]). inversion Hin.
    + reflexivity.
  - apply (proj1 (proj2 (proj2 (proj2 (aliased_dependencies_scan ascii_EqualFold
                                         (userTable false) "missing"
                                         (SemTable_originable (st false))))))).
    + intros info Hin. vm_compute in Hin.
      repeat (apply elem_of_cons in Hin as [->|Hin]; [reflexivity|]). inversion Hin.
    + reflexivity.
Defined.

(** ** The column list *)

Lemma addCatalogColumn_fold (cols : list Column) :
  forall acc,
    let acc' := fold_left addCatalogColumn cols acc in
    columnNames acc'.1
    = columnNames acc.1 ++ map (fun col => ColIdent_String (Column_Name col)) cols /\
    (forall name, name ∈ acc'.2 <->
       name ∈ map (fun col => ColIdent_String (Column_Name col)) cols \/ name ∈ acc.2).
Proof.
  induction cols as [|col cols IH]; intros acc; cbn.
  - unfold columnNames. rewrite app_nil_r. split; [reflexivity|].
    intros name. rewrite elem_of_nil. tauto.
  - destruct (IH (addCatalogColumn acc col)) as [Hnames Hset]. split.
    + rewrite Hnames. unfold addCatalogColumn, columnNames. cbn.
      rewrite map_app, <- app_assoc. reflexivity.
    + intros name. rewrite Hset. unfold addCatalogColumn. cbn.
      rewrite elem_of_union, elem_of_singleton, elem_of_cons. tauto.
Qed.

Lemma addVindexColumn_recorded acc column :
  namesRecorded acc -> namesRecorded (addVindexColumn acc column).
Proof.
  intros [Hnodup Hset]. unfold addVindexColumn.
  destruct (decide (ColIdent_String column ∈ acc.2)) as [Hin|Hnin]; [now split|].
  split; cbn; unfold columnNames; rewrite map_app; cbn.
  - apply NoDup_app. repeat split.
    + exact Hnodup.
    + intros name Hname Hname'. apply list_elem_of_singleton in Hname'. subst name.
      apply Hnin, Hset, Hname.
    + apply NoDup_singleton.
  - intros name. rewrite elem_of_union, elem_of_singleton, elem_of_app, list_elem_of_singleton.
    rewrite Hset. tauto.
Qed.

Lemma addVindexColumns_recorded columns :
  forall acc, namesRecorded acc -> namesRecorded (fold_left addVindexColumn columns acc).
Proof.
  induction columns as [|column columns IH]; intros acc Hacc; [exact Hacc|].
  cbn. apply IH, addVindexColumn_recorded, Hacc.
Qed.

Lemma addVindexes_recorded (vs : list ColumnVindex) :
  forall acc, namesRecorded acc ->
    namesRecorded
      (fold_left (fun acc vindex => fold_left addVindexColumn (ColumnVindex_Columns vindex) acc)
         vs acc).
Proof.
  induction vs as [|vindex vs IH]; intros acc Hacc; [exact Hacc|].
  cbn. apply IH, addVindexColumns_recorded, Hacc.
Qed.

Lemma catalog_recorded (tbl : vindexes.Table) :
  NoDup (catalogNames tbl) -> namesRecorded (fold_left addCatalogColumn (Columns tbl) ([], ∅)).
Proof.
  intros Hnodup. destruct (addCatalogColumn_fold (Columns tbl) ([], ∅)) as [Hnames Hset].
  cbn in Hnames. split.
  - rewrite Hnames. exact Hnodup.
  - intros name. rewrite Hset, Hnames. cbn. rewrite elem_of_empty. unfold catalogNames. tauto.
Qed.

(** C6, as the code has it: when the names of the catalog columns of a table
    are pairwise different as written, no two entries of [GetColumns] have the
    same name as written: a name of a routing vindex is left out when exactly
    this name is in the list already. *)
Theorem columns_distinct_as_written (a : AliasedTable) :
  (forall tbl, Table a = Some tbl -> NoDup (catalogNames tbl)) ->
  NoDup (columnNames (AliasedTable_GetColumns a)).
Proof.
  intros Hcatalog. unfold AliasedTable_GetColumns, vindexTableToColumnInfo.
  destruct (Table a) as [tbl|]; [|apply NoDup_nil_2].
  pose proof (catalog_recorded tbl (Hcatalog tbl eq_refl)) as Hrec.
  destruct (ColumnListAuthoritative tbl).
  - apply Hrec.
  - apply (addVindexes_recorded (ColumnVindexes tbl) _ Hrec).
Qed.

Lemma columns_distinct_as_written_witness :
  NoDup (columnNames (AliasedTable_GetColumns routedTable)).
Proof.
  apply (columns_distinct_as_written routedTable).
  intros tbl Htbl. injection Htbl as <-. vm_compute. apply NoDup_singleton.
Defined.

(** C6 fails as stated: the table whose catalog lists [ID] and whose vindex
    is on [id] has both names in its column list, and they are equal up to
    case. *)
Lemma columns_not_fold_distinct :
  AliasedTable_GetColumns routedTable = [mkColumnInfo "ID" 263%Z; mkColumnInfo "id" Type_NULL_TYPE] /\
  ~ foldDistinct ascii_EqualFold (AliasedTable_GetColumns routedTable).
Proof.
  assert (Hcols : AliasedTable_GetColumns routedTable
                  = [mkColumnInfo "ID" 263%Z; mkColumnInfo "id" Type_NULL_TYPE])
    by (vm_compute; reflexivity).
  split; [exact Hcols|].
  intros Hdistinct. rewrite Hcols in Hdistinct.
  specialize (Hdistinct 0 1 _ _ ltac:(lia) eq_refl eq_refl). discriminate.
Qed.

(** A catalog that lists a column twice is copied as it is. *)
Example columns_catalog_copied :
  columnNames (AliasedTable_GetColumns repeatedTable) = ["id"; "id"].
Proof. vm_compute. reflexivity. Qed.

(** ** Matching a table name *)

Lemma AliasedTable_Matches_iff (a : AliasedTable) (name : TableName) :
  AliasedTable_Matches a name = true <->
  tableName a = v (TableName_Name name) /\ v (TableName_Qualifier name) = EmptyString.
Proof.
  unfold AliasedTable_Matches, TableIdent_IsEmpty, TableIdent_String.
  rewrite andb_true_iff, String.eqb_eq.
  destruct (decide (v (TableName_Qualifier name) = EmptyString)) as [Hq|Hq].
  - tauto.
  - split; [intros [_ H]; discriminate | tauto].
Qed.

(** C9, as the code has it: [Matches] of an aliased table holds exactly for the
    references without qualifier whose name is the [tableName] of the table,
    as written; a qualified reference never matches. *)
Theorem aliased_matches_unqualified (a : AliasedTable) (name : TableName) :
  AliasedTable_Matches a name = true <->
  tableName a = v (TableName_Name name) /\ v (TableName_Qualifier name) = EmptyString.
Proof. apply AliasedTable_Matches_iff. Qed.

(** C9 fails as stated: no qualified reference matches an aliased table, also
    not through a vindex table. *)
Lemma matches_no_qualified :
  ~ (exists (a : AliasedTable) (name : TableName),
        v (TableName_Qualifier name) <> EmptyString /\
        (AliasedTable_Matches a name = true \/
         exists EqualFold vindex,
           Matches (VindexTable_TableInfo
                      (mkVindexTable (AliasedTable_TableInfo EqualFold a) vindex)) name = true)).
Proof.
  intros [a [name [Hq [H|[EqualFold [vindex H]]]]]].
  - apply AliasedTable_Matches_iff in H. tauto.
  - cbn in H. apply AliasedTable_Matches_iff in H. tauto.
Qed.

(** ** Column equalities *)

Lemma DirectDeps_ColName (st : SemTable) (d : gmap (positive + string) Z) (c : ColName) :
  Direct st = Allocated d ->
  exists ts d1,
    DirectDeps st (ColNameExpr c)
    = Returned (ts, mkSemTable (Tables st) (Recursive st) (Allocated d1) (ColumnEqualities st)) /\
    d1 !! inl (col_addr c) = Some ts /\
    (forall k', k' <> inl (col_addr c) -> d1 !! k' = d !! k').
Proof.
  intros Hd.
  destruct (Dependencies_hashable d (ColNameExpr c) (inl (col_addr c)) eq_refl)
    as [ts [d1 [Hdeps [Hcached [Hframe _]]]]].
  exists ts, d1. unfold DirectDeps. rewrite Hd, Hdeps. repeat split; assumption.
Qed.

(** A cached expression is answered from the direct cache, and the table is
    left as it is. *)
Lemma DirectDeps_cached (st : SemTable) (e : Expr) (k : positive + string) (ts : TableSet) :
  mapKey e = Some k -> Direct st !! k = Some ts ->
  DirectDeps st e
  = Returned (ts, mkSemTable (Tables st) (Recursive st) (Direct st) (ColumnEqualities st)).
Proof.
  intros Hk H. unfold DirectDeps. now rewrite (Dependencies_hit (Direct st) e k ts Hk H).
Qed.

(** C8 on the table that [NewSemTable] builds: the constructor makes the
    recursive cache and the map of the equalities and leaves the direct cache
    nil. [DirectDeps] of a column reference then misses and panics at the
    store, and with it the lookup of the column in the equalities and the
    recording of an equality for it; nothing is returned and nothing is
    recorded. The same lookup in the recursive cache, which was made, returns
    the empty set and caches it. *)
Theorem column_equality_on_new_table (a : ColName) (b : Expr) :
  Direct NewSemTable = nilDependencies /\
  DirectDeps NewSemTable (ColNameExpr a) = Panicked nilMapStore /\
  GetExprAndEqualities NewSemTable (ColNameExpr a) = Panicked nilMapStore /\
  AddColumnEquality NewSemTable a b = Panicked nilMapStore /\
  RecursiveDeps NewSemTable (ColNameExpr a)
  = Returned (0%Z, mkSemTable [] {[ inl (col_addr a) := 0%Z ]} nilDependencies ∅).
Proof.
  assert (Hdirect : DirectDeps NewSemTable (ColNameExpr a) = Panicked nilMapStore).
  { unfold DirectDeps. cbn [Direct NewSemTable].
    now rewrite (Dependencies_nilDependencies (ColNameExpr a) (inl (col_addr a)) eq_refl). }
  split; [reflexivity|]. split; [exact Hdirect|]. split; [|split].
  - unfold GetExprAndEqualities. now rewrite Hdirect.
  - unfold AddColumnEquality. now rewrite Hdirect.
  - unfold RecursiveDeps, ExprDependencies_Dependencies. cbn [mapKey Recursive NewSemTable].
    rewrite lookup_Allocated, lookup_empty. cbn [Walk].
    rewrite visitDependencies_miss by (intros k _; apply lookup_empty).
    reflexivity.
Qed.

(** The column equalities of a table whose direct cache has been made.
    [GetExprAndEqualities] of an expression that is no column reference
    returns the list of the expression alone and reads no map. For a column
    reference with no equality recorded under its key (the set [DirectDeps]
    gives it and its column name) it returns the list of the reference
    alone. After [AddColumnEquality st a b] the lookup of [a] returns [a],
    then what was recorded under the key of [a] before, then [b]: the list
    [a; b] when nothing was recorded. *)
Theorem column_equality_lookup :
  (forall (st : SemTable) (expr : Expr),
      (forall c, expr <> ColNameExpr c) ->
      GetExprAndEqualities st expr = Returned ([expr], st)) /\
  (forall (st : SemTable) (d : gmap (positive + string) Z) (c : ColName),
      Direct st = Allocated d ->
      (forall ts st1,
          DirectDeps st (ColNameExpr c) = Returned (ts, st1) ->
          recorded st (ts, ColIdent_String (ColName_Name c)) = []) ->
      exists st', GetExprAndEqualities st (ColNameExpr c) = Returned ([ColNameExpr c], st')) /\
  (forall (st : SemTable) (d : gmap (positive + string) Z) (a : ColName) (b : Expr),
      Direct st = Allocated d ->
      exists ts st1 st2 st3,
        DirectDeps st (ColNameExpr a) = Returned (ts, st1) /\
        AddColumnEquality st a b = Returned st2 /\
        GetExprAndEqualities st2 (ColNameExpr a)
        = Returned (ColNameExpr a :: recorded st (ts, ColIdent_String (ColName_Name a)) ++ [b],
                    st3) /\
        (recorded st (ts, ColIdent_String (ColName_Name a)) = [] ->
         GetExprAndEqualities st2 (ColNameExpr a) = Returned ([ColNameExpr a; b], st3))).
Proof.
  split; [|split].
  - intros st expr Hno. destruct expr as [c| | | | | |]; try reflexivity.
    now destruct (Hno c).
  - intros st d c Hd Hnone.
    destruct (DirectDeps_ColName st d c Hd) as [ts [d1 [Hdeps _]]].
    specialize (Hnone ts _ Hdeps).
    eexists. unfold GetExprAndEqualities. rewrite Hdeps. cbn [bind ColumnEqualities].
    unfold recorded in Hnone. rewrite Hnone. reflexivity.
  - intros st d a b Hd.
    destruct (DirectDeps_ColName st d a Hd) as [ts [d1 [Hdeps [Hcache _]]]].
    set (k := (ts, ColIdent_String (ColName_Name a))).
    set (st1 := mkSemTable (Tables st) (Recursive st) (Allocated d1) (ColumnEqualities st)).
    set (st2 := mkSemTable (Tables st) (Recursive st) (Allocated d1)
                  (<[ k := recorded st k ++ [b] ]> (ColumnEqualities st))).
    assert (Hadd : AddColumnEquality st a b = Returned st2).
    { unfold AddColumnEquality. rewrite Hdeps. reflexivity. }
    assert (Hget : GetExprAndEqualities st2 (ColNameExpr a)
                   = Returned (ColNameExpr a :: recorded st k ++ [b],
                               mkSemTable (Tables st2) (Recursive st2) (Direct st2)
                                 (ColumnEqualities st2))).
    { unfold GetExprAndEqualities.
      rewrite (DirectDeps_cached st2 (ColNameExpr a) (inl (col_addr a)) ts eq_refl Hcache).
      cbn [bind]. fold k. do 2 f_equal. unfold st2. cbn [ColumnEqualities].
      now rewrite lookup_insert_eq. }
    exists ts, st1, st2. eexists.
    split; [exact Hdeps|]. split; [exact Hadd|]. split; [exact Hget|].
    intros Hnone. fold k in Hnone. rewrite Hget, Hnone. reflexivity.
Qed.

(** On a table without entries whose maps have all been made: the column
    [id] alone before, [id] and the literal [42] after the equality [id = 42]
    is recorded. *)
Lemma column_equality_lookup_witness :
  let st := mkSemTable [] ∅ ∅ ∅ in
  let a := colRef 1 "id" in
  (exists st', GetExprAndEqualities st (ColNameExpr a) = Returned ([ColNameExpr a], st')) /\
  (exists st2 st3,
      AddColumnEquality st a (Literal 2 "42") = Returned st2 /\
      GetExprAndEqualities st2 (ColNameExpr a)
      = Returned ([ColNameExpr a; Literal 2 "42"], st3)).
Proof.
  intros st a. split.
  - apply (proj1 (proj2 column_equality_lookup) st ∅ a eq_refl).
    intros ts st1 Hdeps. reflexivity.
  - destruct (proj2 (proj2 column_equality_lookup) st ∅ a (Literal 2 "42") eq_refl)
      as [ts [st1 [st2 [st3 [Hdeps [Hadd [_ Hget]]]]]]].
    exists st2, st3. split; [exact Hadd|]. apply Hget. reflexivity.
Defined.

(** ** Ordinals and capacity *)

(** [addTable] looks at names only: a table whose name is new to the scope is
    appended, however many tables the scope holds. *)
Lemma findCollision_fresh (tblName : string) (infos : list TableInfo) :
  Forall (fun info => exists name, Name info = inl name
                        /\ TableIdent_String (TableName_Name name) <> tblName) infos ->
  findCollision tblName infos = None.
Proof.
  induction 1 as [|info infos [name [Hname Hne]] _ IH]; [reflexivity|].
  cbn. rewrite Hname.
  destruct (String.eqb_spec tblName (TableIdent_String (TableName_Name name))); [congruence|].
  exact IH.
Qed.

Lemma addTable_fresh (s : scope) (info : TableInfo) (name : TableName) :
  Name info = inl name ->
  Forall (fun info' => exists name', Name info' = inl name'
                         /\ TableIdent_String (TableName_Name name')
                            <> TableIdent_String (TableName_Name name)) (tables s) ->
  addTable s info = (mkScope (parent s) (selectStmt s) (tables s ++ [info]) (isUnion s), None).
Proof.
  intros Hname Hfresh. unfold addTable. rewrite Hname.
  now rewrite (findCollision_fresh _ _ Hfresh).
Qed.

(** The singleton set of an ordinal from 64 on is the empty set. *)
Lemma singleton_overflow (i : nat) : 64 <= i -> singleton i = 0%Z.
Proof.
  intros Hi. unfold singleton, wrap, modulus. rewrite Z.shiftl_1_l.
  replace (Z.of_nat i) with (64 + (Z.of_nat i - 64))%Z by lia.
  rewrite Z.pow_add_r, Z.mul_comm by lia. apply Z.mod_mul. lia.
Qed.

(** C1 at a statement of 65 tables: the 65th table, of a new name, is added to
    a scope of 64 tables without error, and [TableSetFor] of its node is the
    empty set, the answer for a node that is not registered, while the 64th
    table has the set of bit 63. *)
Theorem sixty_fifth_table_wraps :
  let s := mkScope None None (numberedTables 64) false in
  let st := mkSemTable (numberedTables 65) ∅ ∅ ∅ in
  (addTable s (numberedTable 64)).2 = None /\
  tables (addTable s (numberedTable 64)).1 = numberedTables 65 /\
  registeredAt (Tables st) (GetExpr (numberedTable 64)) 64 /\
  TableSetFor st (GetExpr (numberedTable 64)) = 0%Z /\
  TableSetFor st (GetExpr (numberedTable 63)) = (2 ^ 63)%Z /\
  TableSetFor st (tableExpr 1000 "unregistered") = 0%Z.
Proof.
  intros s st. split; [|split; [|split; [|split; [|split]]]].
  - vm_compute. reflexivity.
  - vm_compute. reflexivity.
  - split.
    + exists (numberedTable 64). split; reflexivity.
    + intros j info Hj Hinfo. unfold st, Tables, numberedTables in Hinfo.
      rewrite list_lookup_fmap in Hinfo.
      destruct (seq 0 65 !! j) as [i|] eqn:Hseq; [|discriminate].
      apply lookup_seq in Hseq as [-> _]. cbn in Hinfo. injection Hinfo as <-. cbn. lia.
  - vm_compute. reflexivity.
  - vm_compute. reflexivity.
  - vm_compute. reflexivity.
Qed.

(** ** The table of a set *)

(** A set of more than one table is refused with [ErrMultipleTables]. *)
Theorem TableInfoFor_multiple (st : SemTable) (id : TableSet) :
  is_uint64 id -> 1 < popcount id ->
  TableInfoFor st id = Returned (inr ErrMultipleTables).
Proof.
  intros Hid Hmany. unfold TableInfoFor. rewrite (NumberOfTables_popcount id Hid).
  destruct (Nat.ltb_spec 1 (popcount id)); [reflexivity | lia].
Qed.

Lemma TableInfoFor_multiple_witness :
  TableInfoFor (mkSemTable [userInfo] ∅ ∅ ∅) 3%Z = Returned (inr ErrMultipleTables).
Proof.
  apply (TableInfoFor_multiple (mkSemTable [userInfo] ∅ ∅ ∅) 3%Z).
  - unfold is_uint64, modulus. lia.
  - cbn. lia.
Defined.

(** C5 on the empty set and on a singleton set without table: with the one
    table [user] registered, whose set is 1, [TableInfoFor] of the empty set
    returns [user] and no error; with no table registered it panics; and the
    set of ordinal 1, which has no table, makes it panic as well. *)
Theorem table_info_for_empty_set :
  let st := mkSemTable [userInfo] ∅ ∅ ∅ in
  NumberOfTables 0%Z = Some 0 /\
  TableSetFor st (GetExpr userInfo) = 1%Z /\
  TableInfoFor st 0%Z = Returned (inl userInfo) /\
  TableInfoFor (mkSemTable [] ∅ ∅ ∅) 0%Z = Panicked "runtime error: index out of range" /\
  TableInfoFor st 2%Z = Panicked "runtime error: index out of range".
Proof. intros st. repeat split. Qed.

(** ** The ordinal of a registered table *)

Lemma TableOffset_loop_pow2 (fuel : nat) :
  forall i offset, i <= fuel ->
    TableOffset_loop fuel (2 ^ Z.of_nat i) offset = Some (offset + i).
Proof.
  induction fuel as [|fuel IH]; intros i offset Hi.
  - assert (i = 0) as -> by lia. cbn. f_equal. lia.
  - destruct i as [|i].
    + cbn. f_equal. lia.
    + cbn [TableOffset_loop].
      assert (Hbig : (1 < 2 ^ Z.of_nat (S i))%Z).
      { rewrite Nat2Z.inj_succ, Z.pow_succ_r by lia.
        assert (0 < 2 ^ Z.of_nat i)%Z by (apply Z.pow_pos_nonneg; lia). lia. }
      apply Z.ltb_lt in Hbig. rewrite Hbig.
      rewrite Z.shiftr_div_pow2, Z.pow_1_r by lia.
      rewrite Nat2Z.inj_succ, Z.pow_succ_r, Z.mul_comm, Z.div_mul by lia.
      rewrite IH by lia. f_equal. lia.
Qed.

(** [TableOffset] of the singleton set of an ordinal below 64 is the ordinal. *)
Lemma TableOffset_singleton (i : nat) : i < 64 -> TableOffset (singleton i) = Some i.
Proof.
  intros Hi. rewrite singleton_pow2 by exact Hi. unfold TableOffset.
  now rewrite TableOffset_loop_pow2 by lia.
Qed.

Lemma popcount_pow2 (i : nat) : popcount (2 ^ Z.of_nat i) = 1.
Proof.
  induction i as [|i IH]; [reflexivity|].
  rewrite Nat2Z.inj_succ, Z.pow_succ_r by lia.
  assert (0 < 2 ^ Z.of_nat i)%Z by (apply Z.pow_pos_nonneg; lia).
  destruct (2 ^ Z.of_nat i)%Z as [|p|p]; try lia. exact IH.
Qed.

(** A table registered with an ordinal below 64 is found again from its set:
    the ordinal of [TableSetFor] is the index of the table, and [TableInfoFor]
    returns the table at this index. *)
Theorem registered_table_round_trip (st : SemTable) (t : AliasedTableExpr) (idx : nat)
    (info : TableInfo) :
  registeredAt (Tables st) t idx -> idx < 64 -> Tables st !! idx = Some info ->
  TableSetFor st t = (2 ^ Z.of_nat idx)%Z /\
  TableOffset (TableSetFor st t) = Some idx /\
  TableInfoFor st (TableSetFor st t) = Returned (inl info).
Proof.
  intros Hreg Hidx Hinfo. rewrite (TableSetFor_registered st t idx Hreg).
  split; [apply singleton_pow2, Hidx|]. split; [apply TableOffset_singleton, Hidx|].
  unfold TableInfoFor. rewrite (TableOffset_singleton idx Hidx).
  rewrite singleton_pow2 by exact Hidx.
  rewrite NumberOfTables_popcount, popcount_pow2.
  - cbn. now rewrite Hinfo.
  - split; [apply Z.pow_nonneg; lia|]. unfold modulus. apply Z.pow_lt_mono_r; lia.
Qed.

Lemma registered_table_round_trip_witness :
  let st := mkSemTable (numberedTables 65) ∅ ∅ ∅ in
  TableSetFor st (GetExpr (numberedTable 63)) = (2 ^ Z.of_nat 63)%Z /\
  TableOffset (TableSetFor st (GetExpr (numberedTable 63))) = Some 63 /\
  TableInfoFor st (TableSetFor st (GetExpr (numberedTable 63)))
  = Returned (inl (numberedTable 63)).
Proof.
  intros st. apply (registered_table_round_trip st (GetExpr (numberedTable 63)) 63).
  - split.
    + exists (numberedTable 63). split; reflexivity.
    + intros j info Hj Hinfo. unfold st, Tables, numberedTables in Hinfo.
      rewrite list_lookup_fmap in Hinfo.
      destruct (seq 0 65 !! j) as [i|] eqn:Hseq; [|discriminate].
      apply lookup_seq in Hseq as [-> _]. cbn in Hinfo. injection Hinfo as <-. cbn. lia.
  - lia.
  - reflexivity.
Defined.

(** ** The derived-table rewriter *)

(** Whatever the callback meets, [RewriteDerivedExpression] does not return an
    error. *)
Lemma RewriteDerivedExpression_nil_error (expr : Expr) (vt : TableInfo) (next : positive)
    (err : error) :
  RewriteDerivedExpression expr vt next <> Returned (inr err).
Proof.
  unfold RewriteDerivedExpression.
  destruct (Rewrite (CloneExpr expr next).1 (rewriteColName vt)) as [rewritten| |]; cbn;
    discriminate.
Qed.

(** The rewriter returns for a table whose [GetExprFor] returns. *)
Lemma rewriteNode_returns (vt : TableInfo) :
  (forall s, exists r, GetExprFor vt s = Returned r) ->
  forall node, exists r, rewriteNode (rewriteColName vt) node = Returned r.
Proof.
  intros Hvt.
  assert (Hpre : forall node, exists r, rewriteColName vt node = Returned r).
  { intros [c| | | | | |]; try (eexists; reflexivity).
    cbn. destruct (Hvt (ColIdent_String (ColName_Name c))) as [[exp|err] ->];
      eexists; reflexivity. }
  fix IH 1. intros node.
  destruct (Hpre node) as [[replaced kontinue] Hnode].
  destruct node as [c|a lit|a op l r|a op l r|a e|s|es]; cbn [rewriteNode];
    rewrite Hnode; cbn [bind];
    destruct kontinue; cbn [bind]; try (eexists; reflexivity).
  - destruct (IH l) as [[l' ?] ->], (IH r) as [[r' ?] ->]. cbn. eexists; reflexivity.
  - destruct (IH l) as [[l' ?] ->], (IH r) as [[r' ?] ->]. cbn. eexists; reflexivity.
  - destruct (IH e) as [[e' ?] ->]. cbn. eexists; reflexivity.
  - assert (Hes : exists es',
               (fix rewriteList (es : list Expr) : Outcome (list Expr) :=
                  match es with
                  | [] => Returned []
                  | e :: es1 =>
                      let* (e', _) := rewriteNode (rewriteColName vt) e in
                      let* es1' := rewriteList es1 in
                      Returned (e' :: es1')
                  end) es = Returned es').
    { clear Hnode. induction es as [|e es IHes]; [eexists; reflexivity|].
      destruct (IH e) as [[e' ?] ->], IHes as [es' ->]. cbn. eexists; reflexivity. }
    destruct Hes as [es' ->]. cbn. eexists; reflexivity.
Qed.

(** C2 on a column that cannot be resolved: the derived table [d] exposes
    [foo] alone, and [GetExprFor] fails on [bar] with the unknown-column error;
    yet rewriting [bar > 0] returns the clone of [bar > 0] and no error.
    The same holds for a table of the catalog, whose [GetExprFor] always
    fails. *)
Theorem rewrite_drops_unknown_column :
  GetExprFor derivedInfo "bar" = Returned (inr (unknownColumn "bar")) /\
  RewriteDerivedExpression (greaterThanZero "bar") derivedInfo 10
  = Returned (inl (ComparisonExpr 10 ">" (ColNameExpr (colRef 11 "bar")) (Literal 12 "0"))) /\
  GetExprFor userInfo "bar" = Returned (inr (unknownColumn "bar")) /\
  RewriteDerivedExpression (greaterThanZero "bar") userInfo 10
  = Returned (inl (ComparisonExpr 10 ">" (ColNameExpr (colRef 11 "bar")) (Literal 12 "0"))).
Proof. repeat split. Qed.

(** The example of section 8: the reference to [foo] in [foo > 0] becomes
    [id + 42]. *)
Example rewrite_foo :
  RewriteDerivedExpression (greaterThanZero "foo") derivedInfo 10
  = Returned (inl (ComparisonExpr 10 ">" idPlus42 (Literal 12 "0"))).
Proof. reflexivity. Qed.

(** A vindex table makes the rewriter panic at the first column reference. *)
Example rewrite_vindex_table :
  RewriteDerivedExpression (greaterThanZero "foo")
    (VindexTable_TableInfo (mkVindexTable userInfo 1%positive)) 10
  = Panicked "implement me".
Proof. reflexivity. Qed.

(** For a table whose [GetExprFor] returns, the rewriter returns an expression
    and the nil error on every expression. *)
Theorem RewriteDerivedExpression_returns (expr : Expr) (vt : TableInfo) (next : positive) :
  (forall s, exists r, GetExprFor vt s = Returned r) ->
  exists e, RewriteDerivedExpression expr vt next = Returned (inl e).
Proof.
  intros Hvt. unfold RewriteDerivedExpression, Rewrite.
  destruct (rewriteNode_returns vt Hvt (CloneExpr expr next).1) as [[slot self] ->].
  cbn. eexists; reflexivity.
Qed.

Lemma RewriteDerivedExpression_returns_witness :
  exists e, RewriteDerivedExpression (greaterThanZero "bar") derivedInfo 10 = Returned (inl e).
Proof.
  apply (RewriteDerivedExpression_returns (greaterThanZero "bar") derivedInfo 10).
  intros s. cbn. destruct (String.eqb s "foo"); eexists; reflexivity.
Defined.

(** ** The dependency cache *)

(** An expression the visitor may look up can be hashed. *)
Lemma validAsMapKey_hashable (e : Expr) : validAsMapKey e = true -> is_Some (mapKey e).
Proof. destruct e; cbn; intros H; try discriminate; eexists; reflexivity. Qed.





(** C4 on a tuple: a tuple is no key for the visitor, which passes through it
    and uses the cached column under it; but [Dependencies] of the tuple
    itself hashes the tuple in its first statement and panics, whatever the
    map, the nil map included. *)
Theorem dependencies_of_tuple_panics :
  let d : gmap (positive + string) Z := {[ inl 1%positive := 1%Z ]} in
  validAsMapKey tupleOfA = false /\
  ExprDependencies_Dependencies (Allocated d) bInTuple
  = Returned (1%Z, Allocated (<[ inl 5%positive := 1%Z ]> d)) /\
  ExprDependencies_Dependencies (Allocated d) tupleOfA = Panicked unhashable /\
  (forall (d' : ExprDependencies) (es : list Expr),
      ExprDependencies_Dependencies d' (ValTuple es) = Panicked unhashable).
Proof. intros d. repeat split. Qed.


(** ** More of the table-set algebra *)

Lemma lxor_double a b : Z.lxor (Z.double a) (Z.double b) = Z.double (Z.lxor a b).
Proof.
  rewrite !Z.double_spec. apply Z.bits_inj'. intros n Hn.
  rewrite Z.lxor_spec.
  destruct (Z.eq_dec n 0%Z) as [->|Hne].
  - now rewrite !Z.testbit_even_0.
  - replace n with (Z.succ (n - 1))%Z by lia.
    rewrite !Z.testbit_even_succ by lia. now rewrite Z.lxor_spec.
Qed.

Lemma pow2_succ (i : nat) : (2 ^ Z.of_nat (S i) = Z.double (2 ^ Z.of_nat i))%Z.
Proof. rewrite Nat2Z.inj_succ. rewrite Z.pow_succ_r by lia. symmetry. apply Z.double_spec. Qed.

(** One step of the loop of [Constituents] splits off the lowest table. *)
Lemma lowest_constituent (p : positive) :
  Z.lxor (Zpos p) (Z.land (Zpos p) (Zpos p - 1)) = (2 ^ Z.of_nat (lowestBit p))%Z.
Proof.
  induction p as [p IH|p IH|]; [| |reflexivity].
  - change (Z.lxor (Z.pos p~1) (Z.of_N (Pos.Ndouble (Pos.land p p))) = 1%Z).
    rewrite Pos_land_diag. change (Z.lxor (2 * Z.pos p + 1) (2 * Z.pos p) = 1)%Z.
    apply Z.bits_inj'. intros n Hn. rewrite Z.lxor_spec.
    destruct (Z.eq_dec n 0%Z) as [->|Hne].
    + now rewrite Z.testbit_odd_0, Z.testbit_even_0.
    + replace n with (Z.succ (n - 1))%Z by lia.
      rewrite Z.testbit_odd_succ, Z.testbit_even_succ by lia.
      change 1%Z with (2 * 0 + 1)%Z. rewrite Z.testbit_odd_succ by lia.
      rewrite Z.bits_0. apply xorb_nilpotent.
  - rewrite land_pred_even. change (Z.pos p~0) with (Z.double (Z.pos p)).
    rewrite lxor_double, IH. cbn [lowestBit]. now rewrite pow2_succ.
Qed.

Lemma lowestBit_set (p : positive) : Z.testbit (Zpos p) (Z.of_nat (lowestBit p)) = true.
Proof.
  induction p as [p IH|p IH|]; [reflexivity| |reflexivity].
  cbn [lowestBit]. rewrite Nat2Z.inj_succ.
  change (Z.pos p~0) with (2 * Z.pos p)%Z. rewrite Z.testbit_even_succ by lia. exact IH.
Qed.

Lemma lowestBit_lowest (p : positive) (j : nat) :
  j < lowestBit p -> Z.testbit (Zpos p) (Z.of_nat j) = false.
Proof.
  revert j. induction p as [p IH|p IH|]; intros j Hj; cbn [lowestBit] in Hj; try lia.
  change (Z.pos p~0) with (2 * Z.pos p)%Z. destruct j as [|j].
  - apply Z.testbit_even_0.
  - rewrite Nat2Z.inj_succ, Z.testbit_even_succ by lia. apply IH. lia.
Qed.

Lemma lor_split a b : Z.lor (Z.lxor a (Z.land a b)) (Z.land a b) = a.
Proof.
  apply Z.bits_inj'. intros n Hn.
  rewrite Z.lor_spec, Z.lxor_spec, Z.land_spec.
  destruct (Z.testbit a n), (Z.testbit b n); reflexivity.
Qed.

Lemma lor_uint64 a b : is_uint64 a -> is_uint64 b -> is_uint64 (Z.lor a b).
Proof.
  intros [Ha0 Ha1] [Hb0 Hb1]. split; [apply Z.lor_nonneg; lia|].
  destruct (Z.eq_dec (Z.lor a b) 0%Z) as [->|Hne]; [reflexivity|].
  assert (0 <= Z.lor a b)%Z by (apply Z.lor_nonneg; lia).
  apply Z.log2_lt_pow2; [lia|]. rewrite Z.log2_lor by lia.
  assert (Z.log2 a < 64)%Z.
  { destruct (Z.eq_dec a 0%Z) as [->|]; [reflexivity|]. apply Z.log2_lt_pow2; [lia|exact Ha1]. }
  assert (Z.log2 b < 64)%Z.
  { destruct (Z.eq_dec b 0%Z) as [->|]; [reflexivity|]. apply Z.log2_lt_pow2; [lia|exact Hb1]. }
  lia.
Qed.

(** What the loop of [Constituents] appends for the set [mask]. *)
Lemma Constituents_loop_spec (fuel : nat) :
  forall mask result, is_uint64 mask -> popcount mask <= fuel ->
    exists l,
      Constituents_loop fuel mask result = Some (result ++ l) /\
      length l = popcount mask /\
      Forall (fun c => exists i : nat, c = (2 ^ Z.of_nat i)%Z
                         /\ Z.testbit mask (Z.of_nat i) = true) l /\
      mergeAll l = mask /\
      increasing l.
Proof.
  induction fuel as [|fuel IH]; intros mask result Hmask Hfuel.
  - destruct mask as [|p|p]; try (pose proof (Ppopcount_pos p); simpl in Hfuel; lia);
      exists []; rewrite app_nil_r; repeat split; try constructor.
    destruct Hmask; lia.
  - destruct mask as [|p|p]; [| |destruct Hmask; lia].
    { exists []. rewrite app_nil_r. repeat split; constructor. }
    cbn [Constituents_loop]. change (0 <? Z.pos p)%Z with true. cbn iota.
    assert (Hpred : is_uint64 (Z.pos p - 1)) by (unfold is_uint64 in *; lia).
    rewrite (wrap_small _ Hpred).
    set (maskLeft := Z.land (Z.pos p) (Z.pos p - 1)).
    assert (Hleft : is_uint64 maskLeft) by (apply land_uint64; [exact Hmask | lia]).
    assert (Hcount : popcount maskLeft = Nat.pred (Ppopcount p)) by apply popcount_land_pred.
    destruct (IH maskLeft (result ++ [Z.lxor (Z.pos p) maskLeft]) Hleft)
      as [l [Hloop [Hlen [Hall [Hmerge Hsorted]]]]].
    { simpl in Hfuel. lia. }
    pose proof (lowest_constituent p) as Hlow. fold maskLeft in Hlow.
    assert (Hclear : Z.testbit maskLeft (Z.of_nat (lowestBit p)) = false).
    { pose proof (f_equal (fun z => Z.testbit z (Z.of_nat (lowestBit p))) Hlow) as Hbit.
      cbn beta in Hbit. rewrite Z.lxor_spec, lowestBit_set, Z.pow2_bits_true in Hbit by lia.
      now destruct (Z.testbit maskLeft (Z.of_nat (lowestBit p))). }
    exists (Z.lxor (Z.pos p) maskLeft :: l). split; [|split; [|split; [|split]]].
    + rewrite Hloop, <- app_assoc. reflexivity.
    + cbn [length]. rewrite Hlen, Hcount. pose proof (Ppopcount_pos p). simpl. lia.
    + constructor.
      * exists (lowestBit p). split; [exact Hlow | apply lowestBit_set].
      * eapply Forall_impl; [exact Hall|]. intros c [i [Hc Hbit]]. exists i. split; [exact Hc|].
        unfold maskLeft in Hbit. rewrite Z.land_spec in Hbit.
        now apply andb_true_iff in Hbit as [Hbit _].
    + unfold mergeAll in *. cbn [fold_right]. rewrite Hmerge. unfold Merge, maskLeft.
      apply lor_split.
    + constructor; [exact Hsorted|].
      eapply Forall_impl; [exact Hall|]. intros c [i [-> Hbit]]. rewrite Hlow.
      apply Z.pow_lt_mono_r; [lia|lia|].
      destruct (Nat.lt_trichotomy (lowestBit p) i) as [Hlt|[Heq|Hgt]]; [lia| |].
      * subst i. congruence.
      * unfold maskLeft in Hbit. rewrite Z.land_spec, (lowestBit_lowest p i Hgt) in Hbit.
        discriminate.
Qed.

(** [Constituents] returns for every 64-bit set: as many sets as the set has
    tables, each the singleton set of a table of the set, in increasing order
    (lowest ordinal first), and their union is the set. *)
Theorem Constituents_decompose (ts : TableSet) :
  is_uint64 ts ->
  exists l,
    Constituents ts = Some l /\
    length l = popcount ts /\
    Forall (fun c => exists i : nat, i < 64 /\ c = singleton i
                       /\ Z.testbit ts (Z.of_nat i) = true) l /\
    mergeAll l = ts /\
    increasing l.
Proof.
  intros Hts.
  destruct (Constituents_loop_spec 64 ts [] Hts (popcount_uint64 ts Hts))
    as [l [Hloop [Hlen [Hall [Hmerge Hsorted]]]]].
  exists l. repeat split; try assumption.
  eapply Forall_impl; [exact Hall|]. intros c [i [-> Hbit]].
  assert (Hi : i < 64).
  { destruct (Nat.lt_ge_cases i 64) as [Hlt|Hge]; [exact Hlt|].
    destruct Hts as [H0 H1]. rewrite Z.bits_above_log2 in Hbit; [discriminate|exact H0|].
    destruct (Z.eq_dec ts 0%Z) as [->|Hne]; [cbn; lia|].
    assert (Z.log2 ts < 64)%Z by (apply Z.log2_lt_pow2; [lia|exact H1]). lia. }
  exists i. repeat split; [exact Hi | symmetry; apply singleton_pow2, Hi | exact Hbit].
Qed.

Lemma Constituents_decompose_witness :
  exists l,
    Constituents 6%Z = Some l /\
    length l = popcount 6 /\
    Forall (fun c => exists i : nat, i < 64 /\ c = singleton i
                       /\ Z.testbit 6 (Z.of_nat i) = true) l /\
    mergeAll l = 6%Z /\
    increasing l.
Proof. apply (Constituents_decompose 6%Z). unfold is_uint64, modulus. lia. Defined.

(** The tables of [6]: the sets [2] and [4]. *)
Example Constituents_of_6 : Constituents 6%Z = Some [2%Z; 4%Z].
Proof. reflexivity. Qed.

Lemma Ppopcount_lor_disjoint (p : positive) :
  forall q, Pos.land p q = 0%N -> Ppopcount (Pos.lor p q) = Ppopcount p + Ppopcount q.
Proof.
  induction p as [p IH|p IH|]; intros [q|q|] Hdisjoint.
  - change (Pos.Nsucc_double (Pos.land p q) = 0%N) in Hdisjoint.
    destruct (Pos.land p q); discriminate.
  - change (Pos.Ndouble (Pos.land p q) = 0%N) in Hdisjoint.
    change (S (Ppopcount (Pos.lor p q)) = S (Ppopcount p) + Ppopcount q).
    rewrite IH; [lia|]. destruct (Pos.land p q); [reflexivity|discriminate].
  - discriminate.
  - change (Pos.Ndouble (Pos.land p q) = 0%N) in Hdisjoint.
    change (S (Ppopcount (Pos.lor p q)) = Ppopcount p + S (Ppopcount q)).
    rewrite IH; [lia|]. destruct (Pos.land p q); [reflexivity|discriminate].
  - change (Pos.Ndouble (Pos.land p q) = 0%N) in Hdisjoint.
    change (Ppopcount (Pos.lor p q) = Ppopcount p + Ppopcount q).
    apply IH. destruct (Pos.land p q); [reflexivity|discriminate].
  - change (S (Ppopcount p) = Ppopcount p + 1). lia.
  - discriminate.
  - reflexivity.
  - discriminate.
Qed.

Lemma popcount_lor_disjoint a b :
  (0 <= a)%Z -> (0 <= b)%Z -> Z.land a b = 0%Z ->
  popcount (Z.lor a b) = popcount a + popcount b.
Proof.
  intros Ha Hb Hdisjoint. destruct a as [|p|p], b as [|q|q]; try lia; try reflexivity.
  - change (Ppopcount p = Ppopcount p + 0). lia.
  - change (Z.of_N (Pos.land p q) = 0%Z) in Hdisjoint.
    apply (Ppopcount_lor_disjoint p q). destruct (Pos.land p q); [reflexivity|discriminate].
Qed.

(** The union of two 64-bit sets that do not overlap has as many tables as
    the two sets together. *)
Theorem Merge_counts_disjoint (a b : TableSet) :
  is_uint64 a -> is_uint64 b -> IsOverlapping a b = false ->
  is_uint64 (Merge a b) /\
  NumberOfTables (Merge a b) = Some (popcount a + popcount b) /\
  NumberOfTables a = Some (popcount a) /\
  NumberOfTables b = Some (popcount b).
Proof.
  intros Ha Hb Hover.
  assert (Hdisjoint : Z.land a b = 0%Z).
  { unfold IsOverlapping in Hover. apply negb_false_iff, Z.eqb_eq in Hover. exact Hover. }
  pose proof (lor_uint64 a b Ha Hb) as Hlor. unfold Merge.
  split; [exact Hlor|]. rewrite !NumberOfTables_popcount by assumption.
  rewrite popcount_lor_disjoint; [tauto | apply Ha | apply Hb | exact Hdisjoint].
Qed.

Lemma Merge_counts_disjoint_witness :
  is_uint64 (Merge 5%Z 2%Z) /\
  NumberOfTables (Merge 5%Z 2%Z) = Some (popcount 5 + popcount 2) /\
  NumberOfTables 5%Z = Some (popcount 5) /\
  NumberOfTables 2%Z = Some (popcount 2).
Proof.
  apply (Merge_counts_disjoint 5%Z 2%Z); [unfold is_uint64, modulus; lia ..| reflexivity].
Defined.

Lemma IsSolvedBy_iff a b : IsSolvedBy a b = true <-> Z.land a b = a.
Proof. unfold IsSolvedBy. apply Z.eqb_eq. Qed.

Lemma IsOverlapping_iff a b : IsOverlapping a b = true <-> Z.land a b <> 0%Z.
Proof.
  unfold IsOverlapping. rewrite negb_true_iff. apply Z.eqb_neq.
Qed.

(** [IsSolvedBy] is a partial order of which [Merge] is the least upper bound,
    and what overlaps a set overlaps every set that solves it; [IsOverlapping]
    is symmetric. These laws hold for all integers, so for all 64-bit sets. *)
Theorem IsSolvedBy_order (a b c : TableSet) :
  (IsSolvedBy a b = true -> IsSolvedBy b c = true -> IsSolvedBy a c = true) /\
  (IsSolvedBy a b = true -> IsSolvedBy b a = true -> a = b) /\
  (IsSolvedBy (Merge a b) c = true <-> IsSolvedBy a c = true /\ IsSolvedBy b c = true) /\
  IsSolvedBy a (Merge a b) = true /\
  IsOverlapping a b = IsOverlapping b a /\
  (IsSolvedBy a b = true -> IsOverlapping a c = true -> IsOverlapping b c = true).
Proof.
  rewrite !IsSolvedBy_iff, !IsOverlapping_iff. unfold Merge.
  split; [|split; [|split; [|split; [|split]]]].
  - intros Hab Hbc. rewrite <- Hab at 1. rewrite <- Z.land_assoc, Hbc. exact Hab.
  - intros Hab Hba. rewrite <- Hab, Z.land_comm. exact Hba.
  - rewrite Z.land_lor_distr_l. split.
    + intros H. split; apply Z.bits_inj'; intros n Hn;
        pose proof (f_equal (fun z => Z.testbit z n) H) as Hbit; cbn beta in Hbit;
        rewrite !Z.lor_spec, !Z.land_spec in Hbit; rewrite Z.land_spec; revert Hbit;
        destruct (Z.testbit a n), (Z.testbit b n), (Z.testbit c n); simpl; congruence.
    + intros [Ha Hb]. now rewrite Ha, Hb.
  - apply Z.bits_inj'. intros n Hn. rewrite Z.land_spec, Z.lor_spec.
    destruct (Z.testbit a n), (Z.testbit b n); reflexivity.
  - unfold IsOverlapping. now rewrite Z.land_comm.
  - intros Hab Hac Hbc. apply Hac. rewrite <- Hab, <- Z.land_assoc, Hbc. apply Z.land_0_r.
Qed.

Lemma IsSolvedBy_order_witness :
  IsSolvedBy 1%Z 7%Z = true /\
  IsSolvedBy (Merge 1%Z 3%Z) 7%Z = true /\
  IsOverlapping 3%Z 5%Z = true.
Proof.
  destruct (IsSolvedBy_order 1%Z 3%Z 7%Z) as [Htrans [_ [Hlub _]]].
  destruct (IsSolvedBy_order 1%Z 3%Z 5%Z) as [_ [_ [_ [_ [_ Hmono]]]]].
  split; [|split].
  - apply Htrans; reflexivity.
  - apply Hlub. split; reflexivity.
  - apply Hmono; reflexivity.
Defined.

Lemma TableOffset_loop_log2 (fuel : nat) :
  forall ts offset, (0 <= ts)%Z -> (Z.log2 ts <= Z.of_nat fuel)%Z ->
    TableOffset_loop fuel ts offset = Some (offset + Z.to_nat (Z.log2 ts)).
Proof.
  induction fuel as [|fuel IH]; intros ts offset Hts Hfuel; cbn [TableOffset_loop].
  - destruct (Z.ltb_spec 1 ts) as [Hbig|Hsmall].
    + assert (0 < Z.log2 ts)%Z by (apply Z.log2_pos; lia). lia.
    + assert (Z.log2 ts = 0%Z) as -> by (apply Z.log2_null; lia). f_equal. cbn. lia.
  - destruct (Z.ltb_spec 1 ts) as [Hbig|Hsmall].
    + assert (0 < Z.log2 ts)%Z by (apply Z.log2_pos; lia).
      assert (Hshift : Z.log2 (Z.shiftr ts 1) = (Z.log2 ts - 1)%Z).
      { rewrite Z.log2_shiftr by lia. lia. }
      rewrite IH; [|apply Z.shiftr_nonneg; lia|lia]. f_equal. rewrite Hshift. lia.
    + assert (Z.log2 ts = 0%Z) as -> by (apply Z.log2_null; lia). f_equal. cbn. lia.
Qed.

(** [TableOffset] returns for every 64-bit set: for a set with a table, the
    ordinal of its highest table (whose bit is set, and above which no bit is
    set); for the empty set, 0, the answer it gives for the set of ordinal 0. *)
Theorem TableOffset_highest (ts : TableSet) :
  is_uint64 ts ->
  TableOffset ts = Some (Z.to_nat (Z.log2 ts)) /\
  Z.to_nat (Z.log2 ts) < 64 /\
  (ts <> 0%Z -> Z.testbit ts (Z.log2 ts) = true) /\
  (forall n, (Z.log2 ts < n)%Z -> Z.testbit ts n = false) /\
  TableOffset 0%Z = TableOffset 1%Z.
Proof.
  intros [H0 H1].
  assert (Hlog : (Z.log2 ts < 64)%Z).
  { destruct (Z.eq_dec ts 0%Z) as [->|Hne]; [reflexivity|]. apply Z.log2_lt_pow2; [lia|exact H1]. }
  pose proof (Z.log2_nonneg ts).
  split; [|split; [|split; [|split]]].
  - unfold TableOffset. rewrite TableOffset_loop_log2; [reflexivity | exact H0 | lia].
  - lia.
  - intros Hne. apply Z.bit_log2. lia.
  - intros n Hn. apply Z.bits_above_log2; [exact H0 | exact Hn].
  - reflexivity.
Qed.

Lemma TableOffset_highest_witness :
  TableOffset 6%Z = Some (Z.to_nat (Z.log2 6)) /\
  Z.to_nat (Z.log2 6) < 64 /\
  (6%Z <> 0%Z -> Z.testbit 6 (Z.log2 6) = true) /\
  (forall n, (Z.log2 6 < n)%Z -> Z.testbit 6 n = false) /\
  TableOffset 0%Z = TableOffset 1%Z.
Proof. apply (TableOffset_highest 6%Z). unfold is_uint64, modulus. lia. Defined.

(** ** Registration of tables *)

Lemma TableSetFor_loop_unregistered (t : AliasedTableExpr) (infos : list TableInfo) :
  forall base, ~ registered infos t -> TableSetFor_loop t base infos = 0%Z.
Proof.
  induction infos as [|info infos IH]; intros base Hno; [reflexivity|].
  cbn [TableSetFor_loop].
  destruct (Pos.eqb_spec (ate_addr t) (ate_addr (GetExpr info))) as [Heq|Hne].
  - exfalso. apply Hno. exists info. split; [left | now symmetry].
  - apply IH. intros [info' [Hin Haddr]]. apply Hno. exists info'. split; [now right | exact Haddr].
Qed.

(** A registered node has a first table. *)
Lemma registered_first (infos : list TableInfo) (t : AliasedTableExpr) :
  registered infos t -> exists idx, idx < length infos /\ registeredAt infos t idx.
Proof.
  induction infos as [|info infos IH]; intros [info' [Hin Haddr]]; [inversion Hin|].
  destruct (Pos.eq_dec (ate_addr (GetExpr info)) (ate_addr t)) as [Heq|Hne].
  - exists 0. split; [cbn; lia|]. split; [exists info; split; [reflexivity | exact Heq]|].
    intros j ? Hj. lia.
  - destruct IH as [idx [Hidx [[info'' [Hlook Haddr'']] Hfirst]]].
    { exists info'. split; [|exact Haddr].
      apply elem_of_cons in Hin as [->|Hin]; [congruence | exact Hin]. }
    exists (S idx). split; [cbn; lia|]. split; [exists info''; split; assumption|].
    intros [|j] info0 Hj Hlook0.
    + cbn in Hlook0. injection Hlook0 as <-. exact Hne.
    + apply (Hfirst j info0); [lia | exact Hlook0].
Qed.

Lemma pow2_nonzero (i : nat) : (2 ^ Z.of_nat i)%Z <> 0%Z.
Proof. assert (0 < 2 ^ Z.of_nat i)%Z by (apply Z.pow_pos_nonneg; lia). lia. Qed.

(** With at most 64 tables, [TableSetFor] tells the registered nodes from the
    others: it returns the empty set exactly for a node that no table has, and
    for two registered nodes at different addresses it returns two singleton
    sets that do not overlap and that together count two tables. *)
Theorem TableSetFor_separates (st : SemTable) (t1 t2 : AliasedTableExpr) :
  length (Tables st) <= 64 ->
  (TableSetFor st t1 = 0%Z <-> ~ registered (Tables st) t1) /\
  (registered (Tables st) t1 -> registered (Tables st) t2 -> ate_addr t1 <> ate_addr t2 ->
   IsOverlapping (TableSetFor st t1) (TableSetFor st t2) = false /\
   NumberOfTables (Merge (TableSetFor st t1) (TableSetFor st t2)) = Some 2).
Proof.
  intros Hlen. split; [split|].
  - intros Hzero Hreg. destruct (registered_first _ _ Hreg) as [idx [Hidx Hat]].
    rewrite (TableSetFor_registered st t1 idx Hat), singleton_pow2 in Hzero by lia.
    exact (pow2_nonzero idx Hzero).
  - intros Hno. apply TableSetFor_loop_unregistered, Hno.
  - intros Hreg1 Hreg2 Hne.
    destruct (registered_first _ _ Hreg1) as [i [Hi Hat1]].
    destruct (registered_first _ _ Hreg2) as [j [Hj Hat2]].
    assert (Hij : i <> j).
    { intros ->. destruct Hat1 as [[info1 [Hl1 Ha1]] _], Hat2 as [[info2 [Hl2 Ha2]] _]. congruence. }
    rewrite (TableSetFor_registered st t1 i Hat1), (TableSetFor_registered st t2 j Hat2).
    assert (Hdisjoint : Z.land (singleton i) (singleton j) = 0%Z)
      by (apply singleton_disjoint; lia).
    split; [unfold IsOverlapping; now rewrite Hdisjoint|].
    rewrite !singleton_pow2 in * by lia.
    assert (Hu : forall k : nat, k < 64 -> is_uint64 (2 ^ Z.of_nat k)).
    { intros k Hk. split; [apply Z.pow_nonneg; lia|]. unfold modulus. apply Z.pow_lt_mono_r; lia. }
    unfold Merge. rewrite NumberOfTables_popcount by (apply lor_uint64; apply Hu; lia).
    rewrite popcount_lor_disjoint, !popcount_pow2;
      [reflexivity | apply Z.pow_nonneg; lia | apply Z.pow_nonneg; lia | exact Hdisjoint].
Qed.

Lemma TableSetFor_separates_witness :
  let st := mkSemTable (numberedTables 3) ∅ ∅ ∅ in
  (TableSetFor st (tableExpr 1000 "unregistered") = 0%Z
   <-> ~ registered (Tables st) (tableExpr 1000 "unregistered")) /\
  IsOverlapping (TableSetFor st (GetExpr (numberedTable 0)))
    (TableSetFor st (GetExpr (numberedTable 2))) = false /\
  NumberOfTables (Merge (TableSetFor st (GetExpr (numberedTable 0)))
                    (TableSetFor st (GetExpr (numberedTable 2)))) = Some 2.
Proof.
  intros st.
  destruct (TableSetFor_separates st (tableExpr 1000 "unregistered")
              (tableExpr 1000 "unregistered") ltac:(cbn; lia)) as [Hzero _].
  destruct (TableSetFor_separates st (GetExpr (numberedTable 0)) (GetExpr (numberedTable 2))
              ltac:(cbn; lia)) as [_ Hboth].
  split; [exact Hzero|]. apply Hboth.
  - exists (numberedTable 0). split; [left | reflexivity].
  - exists (numberedTable 2). split; [right; right; left | reflexivity].
  - cbn. lia.
Defined.

(** ** Tables of a scope *)

Lemma findCollision_taken (tblName : string) (infos : list TableInfo) (names : list string) :
  namedAs infos names -> tblName ∈ names ->
  findCollision tblName infos = Some (notUnique tblName).
Proof.
  induction 1 as [|info name infos names [tn [Hname Heq]] _ IH]; intros Hin; [inversion Hin|].
  cbn. rewrite Hname. rewrite Heq.
  destruct (String.eqb_spec tblName name) as [->|Hne]; [reflexivity|].
  apply IH. apply elem_of_cons in Hin as [?|Hin]; [congruence | exact Hin].
Qed.

Lemma findCollision_free (tblName : string) (infos : list TableInfo) (names : list string) :
  namedAs infos names -> tblName ∉ names -> findCollision tblName infos = None.
Proof.
  induction 1 as [|info name infos names [tn [Hname Heq]] _ IH]; intros Hout; [reflexivity|].
  cbn. rewrite Hname, Heq.
  destruct (String.eqb_spec tblName name) as [->|Hne]; [exfalso; apply Hout; left|].
  apply IH. intros Hin. apply Hout. now right.
Qed.

(** [addTable] keeps the names of a scope pairwise different. For a scope whose
    tables all have a name and a table named [name]: when the scope has a
    table of exactly this name, [addTable] returns the not-unique error and
    leaves the scope as it is; otherwise it returns no error and appends the
    table, and names that were pairwise different stay so. A table without
    name is refused with the error of its [Name]. *)
Theorem addTable_unique_names (s : scope) (info : TableInfo) (names : list string) :
  namedAs (tables s) names ->
  (forall err, Name info = inr err -> addTable s info = (s, Some err)) /\
  (forall tn, Name info = inl tn ->
     let name := TableIdent_String (TableName_Name tn) in
     (name ∈ names -> addTable s info = (s, Some (notUnique name))) /\
     (name ∉ names ->
      addTable s info
      = (mkScope (parent s) (selectStmt s) (tables s ++ [info]) (isUnion s), None) /\
      namedAs (tables s ++ [info]) (names ++ [name]) /\
      (NoDup names -> NoDup (names ++ [name])))).
Proof.
  intros Hnamed. split.
  - intros err Herr. unfold addTable. now rewrite Herr.
  - intros tn Htn name. split.
    + intros Hin. unfold addTable. rewrite Htn. cbv zeta. fold name.
      now rewrite (findCollision_taken _ _ _ Hnamed Hin).
    + intros Hout. split; [|split].
      * unfold addTable. rewrite Htn. cbv zeta. fold name.
        now rewrite (findCollision_free _ _ _ Hnamed Hout).
      * apply Forall2_app; [exact Hnamed|]. constructor; [|constructor].
        exists tn. split; [exact Htn | reflexivity].
      * intros Hnodup. apply NoDup_app. repeat split; [exact Hnodup | | apply NoDup_singleton].
        intros x Hx Hx'. apply list_elem_of_singleton in Hx'. subst x. exact (Hout Hx).
Qed.

(** The table [user] enters the empty scope; a second table of this name is
    refused. *)
Lemma addTable_unique_names_witness :
  let s := newScope None in
  let s1 := mkScope None None [userInfo] false in
  addTable s userInfo = (s1, None) /\
  addTable s1 userInfo = (s1, Some (notUnique "user")).
Proof.
  intros s s1.
  assert (Hname : Name userInfo
                  = inl (mkTableName (mkTableIdent "user") noQualifier)) by reflexivity.
  split.
  - destruct (addTable_unique_names s userInfo [] ltac:(constructor)) as [_ Hadd].
    apply (Hadd _ Hname). apply not_elem_of_nil.
  - destruct (addTable_unique_names s1 userInfo ["user"]) as [_ Hadd].
    + constructor; [|constructor]. eexists. split; [exact Hname | reflexivity].
    + apply (Hadd _ Hname). left.
Defined.

(** ** More of the column list *)

Lemma addCatalogColumn_columns (cols : list Column) :
  forall acc,
    (fold_left addCatalogColumn cols acc).1
    = acc.1 ++ map (fun col => mkColumnInfo (ColIdent_String (Column_Name col)) (Column_Type col))
                   cols.
Proof.
  induction cols as [|col cols IH]; intros acc; cbn.
  - now rewrite app_nil_r.
  - rewrite IH. unfold addCatalogColumn. cbn. now rewrite <- app_assoc.
Qed.

Lemma appended_refl names acc : appended names acc acc.
Proof.
  exists []. rewrite app_nil_r. repeat split; [constructor | tauto |].
  intros [H|H]; [exact H | inversion H].
Qed.

Lemma appended_trans names acc1 acc2 acc3 :
  appended names acc1 acc2 -> appended names acc2 acc3 -> appended names acc1 acc3.
Proof.
  intros [e1 [H1 [Hall1 Hset1]]] [e2 [H2 [Hall2 Hset2]]].
  exists (e1 ++ e2). split; [|split].
  - rewrite H2, H1. now rewrite app_assoc.
  - apply Forall_app. split; [exact Hall1|].
    eapply Forall_impl; [exact Hall2|]. intros c [Hty [Hin Hout]].
    repeat split; [exact Hty | exact Hin |]. intros Hc. apply Hout, Hset1. now left.
  - intros name. rewrite Hset2, Hset1. unfold columnNames. rewrite map_app, elem_of_app. tauto.
Qed.

Lemma appended_weaken names names' acc acc' :
  (forall name, name ∈ names -> name ∈ names') -> appended names acc acc' ->
  appended names' acc acc'.
Proof.
  intros Hsub [extra [H [Hall Hset]]]. exists extra. repeat split; try assumption; try apply Hset.
  eapply Forall_impl; [exact Hall|]. intros c [Hty [Hin Hout]]. auto.
Qed.

Lemma addVindexColumn_appended acc column :
  appended [ColIdent_String column] acc (addVindexColumn acc column) /\
  ColIdent_String column ∈ (addVindexColumn acc column).2.
Proof.
  unfold addVindexColumn. destruct (decide (ColIdent_String column ∈ acc.2)) as [Hin|Hout].
  - split; [apply appended_refl | exact Hin].
  - split.
    + exists [mkColumnInfo (ColIdent_String column) Type_NULL_TYPE]. cbn. repeat split.
      * constructor; [|constructor]. cbn. repeat split; [left | exact Hout].
      * rewrite elem_of_union, elem_of_singleton, list_elem_of_singleton. tauto.
      * rewrite elem_of_union, elem_of_singleton, list_elem_of_singleton. tauto.
    + cbn. apply elem_of_union. left. now apply elem_of_singleton.
Qed.

Lemma appended_grows names acc acc' name : appended names acc acc' -> name ∈ acc.2 -> name ∈ acc'.2.
Proof. intros [extra [_ [_ Hset]]] Hin. apply Hset. now left. Qed.

Lemma addVindexColumns_appended (columns : list ColIdent) :
  forall acc,
    let acc' := fold_left addVindexColumn columns acc in
    appended (map ColIdent_String columns) acc acc' /\
    (forall name, name ∈ map ColIdent_String columns -> name ∈ acc'.2).
Proof.
  induction columns as [|column columns IH]; intros acc; cbn.
  - split; [apply appended_refl | intros name H; inversion H].
  - destruct (addVindexColumn_appended acc column) as [Hstep Hin].
    destruct (IH (addVindexColumn acc column)) as [Hrest Hall]. split.
    + eapply appended_trans.
      * eapply appended_weaken; [|exact Hstep]. intros name H.
        apply list_elem_of_singleton in H. subst. left.
      * eapply appended_weaken; [|exact Hrest]. intros name H. now right.
    + intros name Hname. apply elem_of_cons in Hname as [->|Hname].
      * eapply appended_grows; [exact Hrest | exact Hin].
      * apply Hall, Hname.
Qed.

Lemma addVindexes_appended (vs : list ColumnVindex) :
  forall acc,
    let names := flat_map (fun vindex => map ColIdent_String (ColumnVindex_Columns vindex)) vs in
    let acc' := fold_left
                  (fun acc vindex => fold_left addVindexColumn (ColumnVindex_Columns vindex) acc)
                  vs acc in
    appended names acc acc' /\ (forall name, name ∈ names -> name ∈ acc'.2).
Proof.
  induction vs as [|vindex vs IH]; intros acc; cbn.
  - split; [apply appended_refl | intros name H; inversion H].
  - destruct (addVindexColumns_appended (ColumnVindex_Columns vindex) acc) as [Hstep Hin].
    destruct (IH (fold_left addVindexColumn (ColumnVindex_Columns vindex) acc)) as [Hrest Hall].
    split.
    + eapply appended_trans.
      * eapply appended_weaken; [|exact Hstep]. intros name H. apply elem_of_app. now left.
      * eapply appended_weaken; [|exact Hrest]. intros name H. apply elem_of_app. now right.
    + intros name Hname. apply elem_of_app in Hname as [Hname|Hname].
      * eapply appended_grows; [exact Hrest | apply Hin, Hname].
      * apply Hall, Hname.
Qed.

Lemma catalog_names_recorded (tbl : vindexes.Table) (name : string) :
  name ∈ (fold_left addCatalogColumn (Columns tbl) ([], ∅)).2 <-> name ∈ catalogNames tbl.
Proof.
  destruct (addCatalogColumn_fold (Columns tbl) ([], ∅)) as [_ Hset].
  rewrite Hset. cbn. rewrite elem_of_empty. unfold catalogNames. tauto.
Qed.

(** The column list of a table: nothing for a table without catalog entry; the
    catalog columns, in their order and with their types, for an authoritative
    table; for another table the catalog columns followed by columns without
    type whose names are names of vindex columns that the catalog does not
    list as written, and every name of a vindex column is the name of some
    column of the list. *)
Theorem columns_of_table (a : AliasedTable) :
  (Table a = None -> AliasedTable_GetColumns a = []) /\
  (forall tbl, Table a = Some tbl ->
     (ColumnListAuthoritative tbl = true -> AliasedTable_GetColumns a = catalogColumns tbl) /\
     (ColumnListAuthoritative tbl = false ->
      exists extra,
        AliasedTable_GetColumns a = catalogColumns tbl ++ extra /\
        Forall (fun c => ColumnInfo_Type c = Type_NULL_TYPE
                         /\ ColumnInfo_Name c ∈ vindexNames tbl
                         /\ ColumnInfo_Name c ∉ catalogNames tbl) extra /\
        (forall name, name ∈ vindexNames tbl ->
                      name ∈ columnNames (AliasedTable_GetColumns a)))).
Proof.
  unfold AliasedTable_GetColumns, vindexTableToColumnInfo. split.
  - intros ->. reflexivity.
  - intros tbl ->. split; intros ->.
    + apply (addCatalogColumn_columns (Columns tbl) ([], ∅)).
    + set (acc := fold_left addCatalogColumn (Columns tbl) ([], ∅)).
      assert (Hacc : acc.1 = catalogColumns tbl)
        by apply (addCatalogColumn_columns (Columns tbl) ([], ∅)).
      destruct (addVindexes_appended (ColumnVindexes tbl) acc) as [[extra [Hcols [Hall Hset]]] Hin].
      exists extra. split; [|split].
      * rewrite Hcols, Hacc. reflexivity.
      * eapply Forall_impl; [exact Hall|]. intros c [Hty [Hname Hout]].
        repeat split; [exact Hty | exact Hname |].
        intros Hc. apply Hout. now apply catalog_names_recorded.
      * intros name Hname. specialize (Hin name Hname). apply Hset in Hin.
        rewrite Hcols. unfold columnNames. rewrite map_app, elem_of_app.
        destruct Hin as [Hin|Hin]; [left | now right].
        apply catalog_names_recorded in Hin. rewrite Hacc.
        unfold catalogColumns. rewrite <- list_fmap_compose. exact Hin.
Qed.

Lemma columns_of_table_witness :
  AliasedTable_GetColumns (userTable true) = catalogColumns (mkTable (mkTableIdent "user") userColumns [] true) /\
  "id" ∈ columnNames (AliasedTable_GetColumns routedTable).
Proof.
  split.
  - destruct (columns_of_table (userTable true)) as [_ H].
    apply (H _ eq_refl). reflexivity.
  - destruct (columns_of_table routedTable) as [_ H].
    destruct (H _ eq_refl) as [_ Hnon].
    destruct (Hnon eq_refl) as [extra [_ [_ Hall]]].
    apply Hall. cbn. left.
Defined.

(** ** Resolution on the column list *)

(** With a comparison that equates every name with itself, as
    [strings.EqualFold] does, a name of the column list of an aliased table is
    resolved as Certain with the set of the table; so is, for a table that is
    not authoritative, every name of a column of its routing vindexes. *)
Theorem listed_column_is_certain (EqualFold : string -> string -> bool)
    (a : AliasedTable) (colName : string) (org : originable) :
  (forall s, EqualFold s s = true) ->
  (colName ∈ columnNames (AliasedTable_GetColumns a) ->
   exists ty, AliasedTable_Dependencies EqualFold a colName org
              = inl (certain (tableSetFor org (ASTNode a)) (tableSetFor org (ASTNode a)) ty)) /\
  (forall tbl, Table a = Some tbl -> ColumnListAuthoritative tbl = false ->
     colName ∈ vindexNames tbl ->
     exists ty, AliasedTable_Dependencies EqualFold a colName org
                = inl (certain (tableSetFor org (ASTNode a)) (tableSetFor org (ASTNode a)) ty)).
Proof.
  intros Hrefl.
  assert (Hlisted : colName ∈ columnNames (AliasedTable_GetColumns a) ->
            exists ty, AliasedTable_Dependencies EqualFold a colName org
              = inl (certain (tableSetFor org (ASTNode a)) (tableSetFor org (ASTNode a)) ty)).
  { intros Hin. unfold columnNames in Hin. apply list_elem_of_fmap in Hin as [info [-> Hin]].
    destruct (scanColumns_some EqualFold (ColumnInfo_Name info) (tableSetFor org (ASTNode a))
                (AliasedTable_GetColumns a)) as [info' [_ [_ Hscan]]].
    { exists info. split; [exact Hin | apply Hrefl]. }
    exists (ColumnInfo_Type info').
    unfold AliasedTable_Dependencies, depsForAliasedAndRealTables. now rewrite Hscan. }
  split; [exact Hlisted|].
  intros tbl Htbl Hnon Hvindex. apply Hlisted.
  unfold AliasedTable_GetColumns, vindexTableToColumnInfo. rewrite Htbl, Hnon.
  destruct (addVindexes_appended (ColumnVindexes tbl)
              (fold_left addCatalogColumn (Columns tbl) ([], ∅)))
    as [[extra [Hcols [_ Hset]]] Hin].
  specialize (Hin colName Hvindex). apply Hset in Hin.
  rewrite Hcols. unfold columnNames. rewrite map_app, elem_of_app.
  destruct Hin as [Hin|Hin]; [left | now right].
  apply catalog_names_recorded in Hin.
  rewrite (addCatalogColumn_columns (Columns tbl) ([], ∅)). cbn.
  unfold catalogNames in Hin. rewrite <- list_fmap_compose. exact Hin.
Qed.

Lemma ascii_EqualFold_refl (s : string) : ascii_EqualFold s s = true.
Proof.
  induction s as [|c s IH]; [reflexivity|]. cbn. rewrite IH, andb_true_r. apply Ascii.eqb_refl.
Qed.

(** The vindex column [id] of the table whose catalog lists [ID] is resolved
    as Certain. *)
Lemma listed_column_is_certain_witness :
  exists ty, AliasedTable_Dependencies ascii_EqualFold routedTable "id"
               (mkOriginable (fun _ => 1%Z))
             = inl (certain 1%Z 1%Z ty).
Proof.
  destruct (listed_column_is_certain ascii_EqualFold routedTable "id"
              (mkOriginable (fun _ => 1%Z)) ascii_EqualFold_refl) as [_ Hvindex].
  apply (Hvindex _ eq_refl eq_refl). cbn. left.
Defined.

(** A vindex table reports itself authoritative, but resolves columns as the
    table it wraps: over an aliased table that is not authoritative, a name
    that matches no column is Uncertain, not Absent; over an authoritative one
    it is Absent. Matching, name, AST node, columns and set are those of the
    wrapped table as well. *)
Theorem vindex_table_delegates (EqualFold : string -> string -> bool)
    (a : AliasedTable) (vindex : Vindex) (colName : string) (org : originable) :
  let inner := AliasedTable_TableInfo EqualFold a in
  let v := VindexTable_TableInfo (mkVindexTable inner vindex) in
  (forall info, info ∈ AliasedTable_GetColumns a ->
                EqualFold (ColumnInfo_Name info) colName = false) ->
  Authoritative v = true /\
  Dependencies v colName org = Dependencies inner colName org /\
  (AliasedTable_Authoritative a = false ->
   Dependencies v colName org
   = inl (uncertain (tableSetFor org (ASTNode a)) (tableSetFor org (ASTNode a)))) /\
  (AliasedTable_Authoritative a = true -> Dependencies v colName org = inl nothing) /\
  Matches v = Matches inner /\ Name v = Name inner /\ GetExpr v = GetExpr inner /\
  GetColumns v = GetColumns inner /\ GetTables v org = tableSetFor org (ASTNode a).
Proof.
  intros inner v Hnone. cbn.
  unfold AliasedTable_Dependencies, depsForAliasedAndRealTables.
  rewrite (scanColumns_none EqualFold colName _ _ Hnone).
  repeat split; intros ->; reflexivity.
Qed.

Lemma vindex_table_delegates_witness :
  let v := VindexTable_TableInfo
             (mkVindexTable (AliasedTable_TableInfo ascii_EqualFold (userTable false)) 1%positive) in
  Authoritative v = true /\
  Dependencies v "missing" (mkOriginable (fun _ => 1%Z)) = inl (uncertain 1%Z 1%Z).
Proof.
  intros v.
  destruct (vindex_table_delegates ascii_EqualFold (userTable false) 1%positive "missing"
              (mkOriginable (fun _ => 1%Z))) as [Hauth [_ [Hunc _]]].
  - intros info Hin. vm_compute in Hin.
    repeat (apply elem_of_cons in Hin as [->|Hin]; [reflexivity|]). inversion Hin.
  - split; [exact Hauth | apply Hunc; reflexivity].
Defined.

(** ** More of the dependency cache *)

(** Memoization is idempotent on a map that has been made: the second lookup
    of an expression that can be hashed returns the set of the first one and
    leaves the map as the first one left it; the first lookup changes no
    entry but the one of the expression. On the nil map the first lookup
    already panics, at its store. *)
Theorem Dependencies_idempotent (e : Expr) (k : positive + string) :
  mapKey e = Some k ->
  (forall d : gmap (positive + string) Z,
      exists set d',
        ExprDependencies_Dependencies (Allocated d) e = Returned (set, Allocated d') /\
        ExprDependencies_Dependencies (Allocated d') e = Returned (set, Allocated d') /\
        d' !! k = Some set /\
        (forall k', k' <> k -> d' !! k' = d !! k')) /\
  ExprDependencies_Dependencies nilDependencies e = Panicked nilMapStore.
Proof.
  intros Hk. split; [|exact (Dependencies_nilDependencies e k Hk)].
  intros d. destruct (Dependencies_hashable d e k Hk) as [set [d' [Hfirst [Hcached [Hframe _]]]]].
  exists set, d'. repeat split; try assumption.
  exact (Dependencies_hit (Allocated d') e k set Hk Hcached).
Qed.

Lemma Dependencies_idempotent_witness :
  (exists set d',
      ExprDependencies_Dependencies (Allocated {[ inl 2%positive := 1%Z ]}) (greaterThanZero "bar")
      = Returned (set, Allocated d') /\
      ExprDependencies_Dependencies (Allocated d') (greaterThanZero "bar")
      = Returned (set, Allocated d') /\
      d' !! inl 1%positive = Some set /\
      (forall k', k' <> inl 1%positive ->
                  d' !! k' = ({[ inl 2%positive := 1%Z ]} : gmap (positive + string) Z) !! k')) /\
  ExprDependencies_Dependencies nilDependencies (greaterThanZero "bar") = Panicked nilMapStore.
Proof.
  destruct (Dependencies_idempotent (greaterThanZero "bar") (inl 1%positive) eq_refl)
    as [Hmade Hnil].
  split; [apply Hmade | exact Hnil].
Defined.

Lemma visitDependencies_hit (d : ExprDependencies) e k set deps :
  mapKey e = Some k -> d !! k = Some set ->
  visitDependencies d e deps = (false, Z.lor deps set).
Proof.
  intros Hk Hd. unfold visitDependencies.
  assert (validAsMapKey e = true) as -> by (destruct e; try reflexivity; discriminate).
  cbn. rewrite Hk. cbn. now rewrite Hd.
Qed.

Lemma Walk_hit (d : ExprDependencies) e k set deps :
  mapKey e = Some k -> d !! k = Some set -> Walk (visitDependencies d) e deps = Z.lor deps set.
Proof.
  intros Hk Hd. destruct e; cbn [Walk]; rewrite (visitDependencies_hit d _ k set deps Hk Hd);
    reflexivity.
Qed.

(** The set of an operation whose operands are cached: a binary or comparison
    expression that is not cached itself resolves to the union of the sets
    cached for its two operands, and this union is cached for it. *)
Theorem Dependencies_of_operands (d : gmap (positive + string) Z) (a : positive) (op : string)
    (l r : Expr) (kl kr : positive + string) (sl sr : TableSet) :
  d !! inl a = None ->
  mapKey l = Some kl -> d !! kl = Some sl ->
  mapKey r = Some kr -> d !! kr = Some sr ->
  ExprDependencies_Dependencies (Allocated d) (BinaryExpr a op l r)
  = Returned (Merge sl sr, Allocated (<[ inl a := Merge sl sr ]> d)) /\
  ExprDependencies_Dependencies (Allocated d) (ComparisonExpr a op l r)
  = Returned (Merge sl sr, Allocated (<[ inl a := Merge sl sr ]> d)).
Proof.
  intros Hroot Hkl Hsl Hkr Hsr.
  unfold ExprDependencies_Dependencies, Merge. cbn [mapKey]. rewrite lookup_Allocated, Hroot.
  assert (Hvisit : forall e, mapKey e = Some (inl a) ->
                     visitDependencies (Allocated d) e 0%Z = (true, 0%Z)).
  { intros e He. apply visitDependencies_miss. intros k Hk. rewrite lookup_Allocated. congruence. }
  split; cbn [Walk]; rewrite Hvisit by reflexivity;
    rewrite (Walk_hit (Allocated d) l kl sl _ Hkl Hsl), (Walk_hit (Allocated d) r kr sr _ Hkr Hsr),
      Z.lor_0_l;
    reflexivity.
Qed.

(** With [id] cached as the set 1 and the literal as the empty set, [id + 42]
    resolves to the set 1. *)
Lemma Dependencies_of_operands_witness :
  let d : gmap (positive + string) Z := {[ inl 21%positive := 1%Z; inl 22%positive := 0%Z ]} in
  ExprDependencies_Dependencies (Allocated d) idPlus42
  = Returned (Merge 1%Z 0%Z, Allocated (<[ inl 20%positive := Merge 1%Z 0%Z ]> d)).
Proof.
  intros d.
  apply (Dependencies_of_operands d 20 "+" (ColNameExpr (colRef 21 "id")) (Literal 22 "42")
           (inl 21%positive) (inl 22%positive) 1%Z 0%Z); reflexivity.
Defined.

Lemma visitDependencies_uint64 (d : ExprDependencies) e deps :
  cacheOfSets d -> is_uint64 deps -> is_uint64 (visitDependencies d e deps).2.
Proof.
  intros Hd Hdeps. unfold visitDependencies.
  destruct (negb (validAsMapKey e)); [exact Hdeps|].
  destruct (mapKey e) as [k|]; cbn; [|exact Hdeps].
  destruct (d !! k) as [set|] eqn:Hk; cbn; [|exact Hdeps].
  apply lor_uint64; [exact Hdeps | exact (Hd k set Hk)].
Qed.

Lemma Walk_uint64 (d : ExprDependencies) e : cacheOfSets d -> forall deps, is_uint64 deps ->
  is_uint64 (Walk (visitDependencies d) e deps).
Proof.
  intros Hd.
  induction e as [c|a lit|a op l r IHl IHr|a op l r IHl IHr|a e IHe|s|es IHes] using Expr_ind;
    intros deps Hdeps; cbn [Walk];
    match goal with
    | |- context [visitDependencies d ?node deps] =>
        pose proof (visitDependencies_uint64 d node deps Hd Hdeps) as Hvisit;
        destruct (visitDependencies d node deps) as [kontinue deps1]
    end; cbn in Hvisit; destruct kontinue; try exact Hvisit.
  - apply IHr, IHl, Hvisit.
  - apply IHr, IHl, Hvisit.
  - apply IHe, Hvisit.
  - revert deps1 Hvisit. clear deps Hdeps.
    induction IHes as [|e1 es He1 _ IH]; intros deps1 Hvisit; [exact Hvisit|].
    apply IH, He1, Hvisit.
Qed.

(** A made map of 64-bit sets stays one: [Dependencies] of an expression
    that can be hashed returns a 64-bit set, and the map it leaves is a made
    map that holds 64-bit sets only. *)
Theorem Dependencies_keeps_sets (d : gmap (positive + string) Z) (e : Expr)
    (k : positive + string) :
  mapKey e = Some k -> cacheOfSets (Allocated d) ->
  exists set d',
    ExprDependencies_Dependencies (Allocated d) e = Returned (set, Allocated d') /\
    is_uint64 set /\ cacheOfSets (Allocated d').
Proof.
  intros Hk Hd. unfold ExprDependencies_Dependencies. rewrite Hk, lookup_Allocated.
  destruct (d !! k) as [set|] eqn:Hcached.
  - exists set, d. split; [reflexivity|]. split; [exact (Hd k set Hcached) | exact Hd].
  - assert (Hset : is_uint64 (Walk (visitDependencies (Allocated d)) e 0%Z)).
    { apply Walk_uint64; [exact Hd|]. unfold is_uint64, modulus. lia. }
    eexists _, _. split; [reflexivity|]. split; [exact Hset|].
    intros k' set' Hlook. rewrite lookup_Allocated in Hlook.
    destruct (decide (k = k')) as [<-|Hne].
    + rewrite lookup_insert_eq in Hlook. injection Hlook as <-. exact Hset.
    + rewrite lookup_insert_ne in Hlook by exact Hne. exact (Hd k' set' Hlook).
Qed.

Lemma Dependencies_keeps_sets_witness :
  exists set d',
    ExprDependencies_Dependencies (Allocated {[ inl 2%positive := 1%Z ]}) (greaterThanZero "bar")
    = Returned (set, Allocated d') /\
    is_uint64 set /\ cacheOfSets (Allocated d').
Proof.
  apply (Dependencies_keeps_sets _ (greaterThanZero "bar") (inl 1%positive)); [reflexivity|].
  intros k set Hk. rewrite lookup_Allocated in Hk.
  destruct (decide (k = inl 2%positive)) as [->|Hne].
  - rewrite lookup_singleton_eq in Hk. injection Hk as <-. unfold is_uint64, modulus. lia.
  - rewrite lookup_singleton_ne in Hk by congruence. discriminate.
Defined.

(** ** More of SemTable *)

Lemma RecursiveDeps_hashable (st : SemTable) (e : Expr) (k : positive + string) :
  mapKey e = Some k ->
  exists set d',
    RecursiveDeps st e
    = Returned (set, mkSemTable (Tables st) d' (Direct st) (ColumnEqualities st)) /\
    d' !! k = Some set.
Proof.
  intros Hk. destruct (Dependencies_hashable (Recursive st) e k Hk) as [set [d' [Hdeps [Hc _]]]].
  exists set, d'. unfold RecursiveDeps. rewrite Hdeps. split; [reflexivity | exact Hc].
Qed.

Lemma DirectDeps_hashable (st : SemTable) (d : gmap (positive + string) Z) (e : Expr)
    (k : positive + string) :
  Direct st = Allocated d -> mapKey e = Some k ->
  exists set d',
    DirectDeps st e
    = Returned (set, mkSemTable (Tables st) (Recursive st) (Allocated d') (ColumnEqualities st)) /\
    d' !! k = Some set.
Proof.
  intros Hd Hk. destruct (Dependencies_hashable d e k Hk) as [set [d' [Hdeps [Hc _]]]].
  exists set, d'. unfold DirectDeps. rewrite Hd, Hdeps. split; [reflexivity | exact Hc].
Qed.

(** [CopyDependencies] makes the target resolve as the source: when both
    expressions can be hashed and the direct cache has been made, it returns,
    and the recursive and the direct cache hold for the target the sets that
    [RecursiveDeps] and [DirectDeps] give for the source, whatever they held
    for it before; the tables and the equalities are untouched. When one of
    the two expressions cannot be hashed, it panics. When both can be hashed
    and the direct cache is nil, as [NewSemTable] leaves it, it panics at the
    store of [DirectDeps]. *)
Theorem CopyDependencies_copies (st : SemTable) (from to : Expr) :
  (forall kf kt d, mapKey from = Some kf -> mapKey to = Some kt -> Direct st = Allocated d ->
     exists recursive direct st1 st2 st',
       RecursiveDeps st from = Returned (recursive, st1) /\
       DirectDeps st from = Returned (direct, st2) /\
       CopyDependencies st from to = Returned st' /\
       Recursive st' !! kt = Some recursive /\
       Direct st' !! kt = Some direct /\
       Tables st' = Tables st /\ ColumnEqualities st' = ColumnEqualities st) /\
  (mapKey from = None \/ mapKey to = None ->
   CopyDependencies st from to = Panicked unhashable) /\
  (forall kf kt, mapKey from = Some kf -> mapKey to = Some kt -> Direct st = nilDependencies ->
     CopyDependencies st from to = Panicked nilMapStore).
Proof.
  split; [|split].
  - intros kf kt d Hkf Hkt Hmade.
    destruct (RecursiveDeps_hashable st from kf Hkf) as [r [dr [Hr _]]].
    destruct (DirectDeps_hashable st d from kf Hmade Hkf) as [dd [ddir [Hd _]]].
    assert (Hcopy : CopyDependencies st from to
                    = Returned (mkSemTable (Tables st) (<[ kt := r ]> dr)
                                  (Allocated (<[ kt := dd ]> ddir)) (ColumnEqualities st))).
    { unfold CopyDependencies. rewrite Hr. cbn [bind]. rewrite Hkt.
      unfold DirectDeps in Hd |- *. cbn [Direct Tables Recursive ColumnEqualities].
      destruct (ExprDependencies_Dependencies (Direct st) from) as [[set d1]| |];
        try discriminate.
      cbn [bind] in Hd |- *. injection Hd as -> ->. reflexivity. }
    eexists r, dd, _, _, _.
    split; [exact Hr|]. split; [exact Hd|]. split; [exact Hcopy|].
    split; [cbn; apply lookup_insert_eq|].
    split; [cbn [Direct]; rewrite lookup_Allocated; apply lookup_insert_eq|].
    split; reflexivity.
  - intros [Hfrom|Hto]; unfold CopyDependencies.
    + unfold RecursiveDeps, ExprDependencies_Dependencies. now rewrite Hfrom.
    + destruct (mapKey from) as [kf|] eqn:Hkf.
      * destruct (RecursiveDeps_hashable st from kf Hkf) as [r [dr [Hr _]]].
        rewrite Hr. cbn [bind]. now rewrite Hto.
      * unfold RecursiveDeps, ExprDependencies_Dependencies. now rewrite Hkf.
  - intros kf kt Hkf Hkt Hnil.
    destruct (RecursiveDeps_hashable st from kf Hkf) as [r [dr [Hr _]]].
    unfold CopyDependencies. rewrite Hr. cbn [bind]. rewrite Hkt.
    unfold DirectDeps. cbn [Direct]. rewrite Hnil.
    now rewrite (Dependencies_nilDependencies from kf Hkf).
Qed.

(** With [id] resolved to the set 1 in both caches, a copy to the literal [42]
    makes the literal resolve to the set 1; a copy to a tuple panics; and on
    the table [NewSemTable] builds the copy to the literal panics. *)
Lemma CopyDependencies_copies_witness :
  let d : gmap (positive + string) Z := {[ inl 21%positive := 1%Z ]} in
  let st := mkSemTable [] d (Allocated d) ∅ in
  (exists st', CopyDependencies st (ColNameExpr (colRef 21 "id")) (Literal 22 "42") = Returned st'
               /\ Recursive st' !! inl 22%positive = Some 1%Z
               /\ Direct st' !! inl 22%positive = Some 1%Z) /\
  CopyDependencies st (ColNameExpr (colRef 21 "id")) tupleOfA = Panicked unhashable /\
  CopyDependencies NewSemTable (ColNameExpr (colRef 21 "id")) (Literal 22 "42")
  = Panicked nilMapStore.
Proof.
  intros d st. split; [|split].
  - destruct (proj1 (CopyDependencies_copies st (ColNameExpr (colRef 21 "id")) (Literal 22 "42"))
                (inl 21%positive) (inl 22%positive) d eq_refl eq_refl eq_refl)
      as [r [dd [st1 [st2 [st' [Hr [Hd [Hcopy [Hrec [Hdir _]]]]]]]]]].
    assert (r = 1%Z) as -> by (vm_compute in Hr; congruence).
    assert (dd = 1%Z) as -> by (vm_compute in Hd; congruence).
    exists st'. repeat split; assumption.
  - apply (proj1 (proj2 (CopyDependencies_copies st (ColNameExpr (colRef 21 "id")) tupleOfA))).
    right. reflexivity.
  - apply (proj2 (proj2 (CopyDependencies_copies NewSemTable (ColNameExpr (colRef 21 "id"))
                           (Literal 22 "42")))
             (inl 21%positive) (inl 22%positive)); reflexivity.
Defined.

Lemma AddExprs_loop_stores (tableSet : TableSet) (cols : list SelectExpr) :
  forall d : gmap (positive + string) Z,
    Forall (fun col => is_Some (selectKey col)) cols ->
    exists d',
      AddExprs_loop tableSet cols d = Returned d' /\
      (forall col k, col ∈ cols -> selectKey col = Some k -> d' !! k = Some tableSet) /\
      (forall k, (forall col, col ∈ cols -> selectKey col <> Some k) -> d' !! k = d !! k).
Proof.
  induction cols as [|col cols IH]; intros d Hall.
  - exists d. split; [reflexivity|]. split; [intros col k H; inversion H | reflexivity].
  - apply Forall_cons in Hall as [[k Hk] Hall].
    destruct col as [a tn|a e alias|a e]; cbn in Hk; try discriminate.
    cbn [AddExprs_loop]. rewrite Hk.
    destruct (IH (<[ k := tableSet ]> d) Hall) as [d' [Hloop [Hstored Hframe]]].
    exists d'. split; [exact Hloop|]. split.
    + intros col k' Hin Hk'. apply elem_of_cons in Hin as [->|Hin].
      * cbn in Hk'. assert (k' = k) as -> by congruence.
        destruct (decide (Exists (fun col => selectKey col = Some k) cols)) as [Hex|Hno].
        -- apply Exists_exists in Hex as [col [Hin Hcol]]. exact (Hstored col k Hin Hcol).
        -- rewrite Hframe; [apply lookup_insert_eq|].
           intros col Hin Hcol. apply Hno, Exists_exists. exists col. split; assumption.
      * exact (Hstored col k' Hin Hk').
    + intros k' Hnone. rewrite Hframe.
      * apply lookup_insert_ne. intros ->. apply (Hnone (AliasedExpr a e alias)); [left | exact Hk].
      * intros col Hin. apply Hnone. now right.
Qed.

Lemma AddExprs_loop_panics (tableSet : TableSet) (cols : list SelectExpr) :
  forall d : gmap (positive + string) Z,
    Exists (fun col => selectKey col = None) cols ->
    exists msg, AddExprs_loop tableSet cols d = Panicked msg.
Proof.
  induction cols as [|col cols IH]; intros d Hex; [inversion Hex|].
  destruct col as [a tn|a e alias|a e]; try (eexists; reflexivity).
  cbn [AddExprs_loop]. destruct (mapKey e) as [k|] eqn:Hk; [|eexists; reflexivity].
  apply IH. apply Exists_cons in Hex as [Hhere|Hlater]; [cbn in Hhere; congruence | exact Hlater].
Qed.

(** [AddExprs] returns exactly when every entry of the projection list is an
    aliased expression whose expression can be hashed. Then the recursive
    cache holds the set of the table for each of these expressions, whatever
    it held before, its other entries are as before, and nothing else of the
    table changes. Another entry (a star, a sequence value, a tuple) makes it
    panic. *)
Theorem AddExprs_stores (st : SemTable) (tbl : AliasedTableExpr) (cols : list SelectExpr) :
  (Forall (fun col => is_Some (selectKey col)) cols ->
   exists st',
     AddExprs st tbl cols = Returned st' /\
     (forall col k, col ∈ cols -> selectKey col = Some k ->
                    Recursive st' !! k = Some (TableSetFor st tbl)) /\
     (forall k, (forall col, col ∈ cols -> selectKey col <> Some k) ->
                Recursive st' !! k = Recursive st !! k) /\
     Tables st' = Tables st /\ Direct st' = Direct st /\
     ColumnEqualities st' = ColumnEqualities st) /\
  (Exists (fun col => selectKey col = None) cols ->
   exists msg, AddExprs st tbl cols = Panicked msg).
Proof.
  split.
  - intros Hall.
    destruct (AddExprs_loop_stores (TableSetFor st tbl) cols (Recursive st) Hall)
      as [d' [Hloop [Hstored Hframe]]].
    eexists. unfold AddExprs. rewrite Hloop. cbn [bind]. repeat split; assumption.
  - intros Hex.
    destruct (AddExprs_loop_panics (TableSetFor st tbl) cols (Recursive st) Hex) as [msg Hloop].
    exists msg. unfold AddExprs. now rewrite Hloop.
Qed.

(** The projection [id + 42] of the table [user]: the expression resolves to
    the set of [user]; a projection list with a star is refused with a panic. *)
Lemma AddExprs_stores_witness :
  let st := mkSemTable [userInfo] ∅ ∅ ∅ in
  (exists st', AddExprs st (GetExpr userInfo) [AliasedExpr 30 idPlus42 (mkColIdent "foo")]
               = Returned st'
               /\ Recursive st' !! inl 20%positive = Some 1%Z) /\
  (exists msg, AddExprs st (GetExpr userInfo)
                 [StarExpr 31 (mkTableName noQualifier noQualifier)] = Panicked msg).
Proof.
  intros st. split.
  - destruct (proj1 (AddExprs_stores st (GetExpr userInfo)
                       [AliasedExpr 30 idPlus42 (mkColIdent "foo")]))
      as [st' [Hadd [Hstored _]]].
    + constructor; [eexists; reflexivity | constructor].
    + exists st'. split; [exact Hadd|]. apply (Hstored _ _ ltac:(left) eq_refl).
  - apply (proj2 (AddExprs_stores st (GetExpr userInfo)
                    [StarExpr 31 (mkTableName noQualifier noQualifier)])).
    left. reflexivity.
Defined.

(** The table of an expression is found through its cached direct set: when
    the set is the singleton set of an ordinal below 64 that has a table,
    [TableInfoForExpr] returns this table; when the set has more than one
    table, it returns [ErrMultipleTables]. The call leaves the table as it
    is. *)
Theorem TableInfoForExpr_cached (st : SemTable) (e : Expr) (k : positive + string)
    (set : TableSet) :
  mapKey e = Some k -> Direct st !! k = Some set -> is_uint64 set ->
  (forall idx info, set = (2 ^ Z.of_nat idx)%Z -> idx < 64 -> Tables st !! idx = Some info ->
     TableInfoForExpr st e
     = Returned (inl info,
                 mkSemTable (Tables st) (Recursive st) (Direct st) (ColumnEqualities st))) /\
  (1 < popcount set ->
   TableInfoForExpr st e
   = Returned (inr ErrMultipleTables,
               mkSemTable (Tables st) (Recursive st) (Direct st) (ColumnEqualities st))).
Proof.
  intros Hk Hcached Hset.
  unfold TableInfoForExpr. rewrite (DirectDeps_cached st e k set Hk Hcached). cbn [bind]. split.
  - intros idx info -> Hidx Hinfo. unfold TableInfoFor. cbn [Tables].
    rewrite NumberOfTables_popcount, popcount_pow2 by exact Hset.
    rewrite <- (singleton_pow2 idx Hidx), (TableOffset_singleton idx Hidx). cbn.
    now rewrite Hinfo.
  - intros Hmany. unfold TableInfoFor. rewrite (NumberOfTables_popcount set Hset).
    destruct (Nat.ltb_spec 1 (popcount set)); [reflexivity | lia].
Qed.

Lemma TableInfoForExpr_cached_witness :
  let c := ColNameExpr (colRef 21 "id") in
  let st set := mkSemTable [userInfo] ∅ (Allocated {[ inl 21%positive := set ]}) ∅ in
  TableInfoForExpr (st 1%Z) c = Returned (inl userInfo, st 1%Z) /\
  TableInfoForExpr (st 3%Z) c = Returned (inr ErrMultipleTables, st 3%Z).
Proof.
  intros c st. split.
  - apply (proj1 (TableInfoForExpr_cached (st 1%Z) c (inl 21%positive) 1%Z eq_refl eq_refl
                    ltac:(unfold is_uint64, modulus; lia)) 0 userInfo); [reflexivity|lia|reflexivity].
  - apply (proj2 (TableInfoForExpr_cached (st 3%Z) c (inl 21%positive) 3%Z eq_refl eq_refl
                    ltac:(unfold is_uint64, modulus; lia))). cbn. lia.
Defined.

(** ** More of the column equalities *)

(** The set of a column reference in a made map depends on its own entry
    only. *)
Lemma Dependencies_ColName_value (d : gmap (positive + string) Z) (c : ColName) :
  exists d', ExprDependencies_Dependencies (Allocated d) (ColNameExpr c)
             = Returned (default 0%Z (d !! inl (col_addr c)), Allocated d').
Proof.
  unfold ExprDependencies_Dependencies. cbn [mapKey]. rewrite lookup_Allocated.
  destruct (d !! inl (col_addr c)) as [set|] eqn:Hd; [eexists; reflexivity|].
  cbn [Walk]. rewrite visitDependencies_miss
    by (intros k Hk; rewrite lookup_Allocated; cbn in Hk; congruence).
  eexists; reflexivity.
Qed.

(** On a table whose direct cache has been made, [AddColumnEquality] appends
    to one list only: the equalities under the key of the column get the
    expression at their end, those under every other key are as before, and
    the tables and the recursive cache are untouched. The equality is recorded
    in one direction: a column at another address and under another key is
    looked up with the list it had before. On a table whose direct cache is
    nil, as [NewSemTable] leaves it, [AddColumnEquality] panics and records
    nothing. *)
Theorem AddColumnEquality_frame (st : SemTable) (a : ColName) (b : Expr) :
  (forall d : gmap (positive + string) Z,
      Direct st = Allocated d ->
      exists ts st1 st2,
        DirectDeps st (ColNameExpr a) = Returned (ts, st1) /\
        AddColumnEquality st a b = Returned st2 /\
        recorded st2 (ts, ColIdent_String (ColName_Name a))
        = recorded st (ts, ColIdent_String (ColName_Name a)) ++ [b] /\
        (forall k, k <> (ts, ColIdent_String (ColName_Name a)) -> recorded st2 k = recorded st k) /\
        Tables st2 = Tables st /\ Recursive st2 = Recursive st /\
        (forall (c : ColName) (tc : TableSet) (st' : SemTable),
            col_addr c <> col_addr a ->
            DirectDeps st (ColNameExpr c) = Returned (tc, st') ->
            (tc, ColIdent_String (ColName_Name c)) <> (ts, ColIdent_String (ColName_Name a)) ->
            exists st'',
              GetExprAndEqualities st2 (ColNameExpr c)
              = Returned (ColNameExpr c :: recorded st (tc, ColIdent_String (ColName_Name c)),
                          st''))) /\
  (Direct st = nilDependencies -> AddColumnEquality st a b = Panicked nilMapStore).
Proof.
  split.
  - intros d Hmade.
    destruct (Dependencies_hashable d (ColNameExpr a) (inl (col_addr a)) eq_refl)
      as [ts [d1 [Hdeps [Hcached [Hframe _]]]]].
    set (k := (ts, ColIdent_String (ColName_Name a))).
    set (st1 := mkSemTable (Tables st) (Recursive st) (Allocated d1) (ColumnEqualities st)).
    set (st2 := mkSemTable (Tables st) (Recursive st) (Allocated d1)
                  (<[ k := recorded st k ++ [b] ]> (ColumnEqualities st))).
    assert (Hdirect : DirectDeps st (ColNameExpr a) = Returned (ts, st1))
      by (unfold DirectDeps; now rewrite Hmade, Hdeps).
    exists ts, st1, st2.
    split; [exact Hdirect|]. split; [|split; [|split; [|split; [|split]]]].
    + unfold AddColumnEquality. rewrite Hdirect. reflexivity.
    + unfold recorded at 1. cbn [ColumnEqualities st2]. now rewrite lookup_insert_eq.
    + intros k' Hne. unfold recorded. cbn [ColumnEqualities st2].
      now rewrite lookup_insert_ne by (intros Heq; apply Hne; now symmetry).
    + reflexivity.
    + reflexivity.
    + intros c tc st' Haddr Hc Hkey.
      destruct (Dependencies_ColName_value d c) as [d' Hvalue].
      assert (tc = default 0%Z (d !! inl (col_addr c))) as Htc.
      { unfold DirectDeps in Hc. rewrite Hmade, Hvalue in Hc. cbn in Hc. congruence. }
      destruct (Dependencies_ColName_value d1 c) as [d2 Hvalue2].
      rewrite Hframe in Hvalue2 by congruence. rewrite <- Htc in Hvalue2.
      eexists. unfold GetExprAndEqualities, DirectDeps, st2. cbn [Direct]. rewrite Hvalue2.
      cbn [bind ColumnEqualities].
      rewrite lookup_insert_ne by (intros Heq; apply Hkey; now symmetry).
      reflexivity.
  - intros Hnil. unfold AddColumnEquality, DirectDeps. rewrite Hnil.
    now rewrite (Dependencies_nilDependencies (ColNameExpr a) (inl (col_addr a)) eq_refl).
Qed.

(** ** The rewriter on the tables of the catalog *)

Lemma rewriteNode_aliased (EqualFold : string -> string -> bool) (a : AliasedTable) :
  forall node,
    rewriteNode (rewriteColName (AliasedTable_TableInfo EqualFold a)) node = Returned (node, node).
Proof.
  fix IH 1. intros node.
  destruct node as [c|ad lit|ad op l r|ad op l r|ad e|s|es]; cbn [rewriteNode rewriteColName];
    cbn; try reflexivity.
  - now rewrite (IH l), (IH r).
  - now rewrite (IH l), (IH r).
  - now rewrite (IH e).
  - assert (Hes : (fix rewriteList (es : list Expr) : Outcome (list Expr) :=
                     match es with
                     | [] => Returned []
                     | e :: es1 =>
                         let* (e', _) :=
                           rewriteNode (rewriteColName (AliasedTable_TableInfo EqualFold a)) e in
                         let* es1' := rewriteList es1 in
                         Returned (e' :: es1')
                     end) es = Returned es).
    { induction es as [|e es IHes]; [reflexivity|]. rewrite (IH e). cbn. now rewrite IHes. }
    now rewrite Hes.
Qed.

(** An aliased table exposes no expression, so the rewriter changes nothing:
    for every expression it returns the clone of the expression, column
    references included, and no error. *)
Theorem RewriteDerivedExpression_aliased (EqualFold : string -> string -> bool)
    (a : AliasedTable) (expr : Expr) (next : positive) :
  RewriteDerivedExpression expr (AliasedTable_TableInfo EqualFold a) next
  = Returned (inl (CloneExpr expr next).1).
Proof.
  unfold RewriteDerivedExpression, Rewrite. now rewrite rewriteNode_aliased.
Qed.

(** After [a = b] is recorded for the column [a], the column [b], at another
    address and of another name, is still looked up as [b] alone. On the table
    [NewSemTable] builds the equality is not recorded. *)
Lemma AddColumnEquality_frame_witness :
  let st := mkSemTable [] ∅ ∅ ∅ in
  (exists st2 st3,
      AddColumnEquality st (colRef 1 "a") (ColNameExpr (colRef 2 "b")) = Returned st2 /\
      GetExprAndEqualities st2 (ColNameExpr (colRef 2 "b"))
      = Returned ([ColNameExpr (colRef 2 "b")], st3)) /\
  AddColumnEquality NewSemTable (colRef 1 "a") (ColNameExpr (colRef 2 "b"))
  = Panicked nilMapStore.
Proof.
  intros st. split.
  - destruct (proj1 (AddColumnEquality_frame st (colRef 1 "a") (ColNameExpr (colRef 2 "b")))
                ∅ eq_refl)
      as [ts [st1 [st2 [Hdeps [Hadd [_ [_ [_ [_ Hother]]]]]]]]].
    assert (ts = 0%Z) as -> by (vm_compute in Hdeps; congruence).
    destruct (Hother (colRef 2 "b") 0%Z _ ltac:(discriminate) eq_refl ltac:(discriminate))
      as [st3 Hget].
    exists st2, st3. split; [exact Hadd | exact Hget].
  - apply (proj2 (AddColumnEquality_frame NewSemTable (colRef 1 "a")
                    (ColNameExpr (colRef 2 "b")))).
    reflexivity.
Defined.

Lemma rewriteNode_vindex (v : VindexTable) :
  forall node,
    rewriteNode (rewriteColName (VindexTable_TableInfo v)) node
    = if containsColName node then Panicked "implement me" else Returned (node, node).
Proof.
  fix IH 1. intros node.
  destruct node as [c|ad lit|ad op l r|ad op l r|ad e|s|es]; cbn [rewriteNode rewriteColName];
    cbn; try reflexivity.
  - rewrite (IH l). destruct (containsColName l); [reflexivity|]. cbn.
    rewrite (IH r). destruct (containsColName r); reflexivity.
  - rewrite (IH l). destruct (containsColName l); [reflexivity|]. cbn.
    rewrite (IH r). destruct (containsColName r); reflexivity.
  - rewrite (IH e). destruct (containsColName e); reflexivity.
  - assert (Hes : (fix rewriteList (es : list Expr) : Outcome (list Expr) :=
                     match es with
                     | [] => Returned []
                     | e :: es1 =>
                         let* (e', _) :=
                           rewriteNode (rewriteColName (VindexTable_TableInfo v)) e in
                         let* es1' := rewriteList es1 in
                         Returned (e' :: es1')
                     end) es
                  = if containsColName (ValTuple es) then Panicked "implement me"
                    else Returned es).
    { induction es as [|e es IHes]; [reflexivity|]. rewrite (IH e). cbn in *.
      destruct (containsColName e); [reflexivity|]. cbn. rewrite IHes.
      match goal with |- context [if ?b then _ else _] => destruct b end; reflexivity. }
    rewrite Hes. cbn. match goal with |- context [if ?b then _ else _] => destruct b end;
      reflexivity.
Qed.

Lemma containsColName_clone (e : Expr) :
  forall next, containsColName (CloneExpr e next).1 = containsColName e.
Proof.
  induction e as [c|a lit|a op l r IHl IHr|a op l r IHl IHr|a e IHe|s|es IHes] using Expr_ind;
    intros next; cbn [CloneExpr]; try reflexivity.
  - specialize (IHl (Pos.succ next)). destruct (CloneExpr l (Pos.succ next)) as [l' n1].
    specialize (IHr n1). destruct (CloneExpr r n1) as [r' n2]. cbn in *. now rewrite IHl, IHr.
  - specialize (IHl (Pos.succ next)). destruct (CloneExpr l (Pos.succ next)) as [l' n1].
    specialize (IHr n1). destruct (CloneExpr r n1) as [r' n2]. cbn in *. now rewrite IHl, IHr.
  - specialize (IHe (Pos.succ next)). destruct (CloneExpr e (Pos.succ next)) as [e' n1].
    cbn in *. exact IHe.
  - match goal with
    | |- context [let '(_, _) := ?f es next in _] => set (CloneList := f)
    end.
    assert (H : forall n, containsColName (ValTuple (CloneList es n).1)
                          = containsColName (ValTuple es)).
    { clear next. induction IHes as [|e1 es He1 _ IH]; intros n; [reflexivity|].
      change (CloneList (e1 :: es) n)
        with (let '(e1', n1) := CloneExpr e1 n in
              let '(es1', n2) := CloneList es n1 in (e1' :: es1', n2)).
      specialize (He1 n). destruct (CloneExpr e1 n) as [e1' n1].
      specialize (IH n1). destruct (CloneList es n1) as [es1' n2].
      change (containsColName e1' || containsColName (ValTuple es1')
              = containsColName e1 || containsColName (ValTuple es)).
      cbn [fst] in He1, IH. now rewrite He1, IH. }
    specialize (H next). destruct (CloneList es next) as [es' n1]. exact H.
Qed.

(** A vindex table cannot expose an expression: the rewriter panics with
    "implement me" on every expression that holds a column reference, and
    returns the clone of every other expression. *)
Theorem RewriteDerivedExpression_vindex (v : VindexTable) (expr : Expr) (next : positive) :
  RewriteDerivedExpression expr (VindexTable_TableInfo v) next
  = if containsColName expr then Panicked "implement me"
    else Returned (inl (CloneExpr expr next).1).
Proof.
  unfold RewriteDerivedExpression, Rewrite. rewrite rewriteNode_vindex, containsColName_clone.
  destruct (containsColName expr); reflexivity.
Qed.

(** ** Counters and gauges *)

Lemma wrap64_add (x y : Z) : stats.wrap64 (stats.wrap64 x + y) = stats.wrap64 (x + y).
Proof.
  unfold stats.wrap64. f_equal.
  replace ((x + 2 ^ 63) mod 2 ^ 64 - 2 ^ 63 + y + 2 ^ 63)%Z
    with ((x + 2 ^ 63) mod 2 ^ 64 + y)%Z by lia.
  rewrite Zplus_mod_idemp_l. f_equal. lia.
Qed.

Lemma wrap64_int64 (z : Z) : stats.is_int64 (stats.wrap64 z).
Proof.
  unfold stats.is_int64, stats.wrap64.
  pose proof (Z.mod_pos_bound (z + 2 ^ 63) (2 ^ 64) ltac:(lia)). lia.
Qed.

Lemma wrap64_small (z : Z) : stats.is_int64 z -> stats.wrap64 z = z.
Proof.
  unfold stats.is_int64, stats.wrap64. intros H. rewrite Z.mod_small; lia.
Qed.

Lemma sumZ_Permutation (l l' : list Z) : l ≡ₚ l' -> sumZ l = sumZ l'.
Proof.
  induction 1 as [|x l l' _ IH|x y l|l l' l'' _ IH1 _ IH2]; cbn; try lia.
  unfold sumZ in *. lia.
Qed.

Lemma Counter_AddAll_fold (deltas : list Z) :
  forall (v : stats.Counter) (events : list stats.Event),
    fold_left (fun acc delta =>
                 let '(v', events) := stats.Counter_Add acc.1 delta in (v', acc.2 ++ events))
              deltas (v, events)
    = (stats.mkCounter (fold_left (fun value delta => stats.wrap64 (value + delta)) deltas
                          (stats.i v))
                       (stats.help v),
       events ++ flat_map (fun delta => if (delta <? 0)%Z then [stats.NegativeWarning] else [])
                          deltas).
Proof.
  induction deltas as [|delta deltas IH]; intros v events; cbn.
  - rewrite app_nil_r. now destruct v.
  - rewrite IH. cbn. now rewrite <- app_assoc.
Qed.

Lemma wrap64_fold (deltas : list Z) :
  forall value, stats.is_int64 value ->
    fold_left (fun value delta => stats.wrap64 (value + delta)) deltas value
    = stats.wrap64 (value + sumZ deltas).
Proof.
  induction deltas as [|delta deltas IH]; intros value Hvalue; cbn.
  - rewrite Z.add_0_r. symmetry. apply wrap64_small, Hvalue.
  - rewrite IH by apply wrap64_int64. rewrite wrap64_add. f_equal. unfold sumZ. lia.
Qed.

(** The value of a counter after a sequence of [Add] calls is its value before
    plus the sum of the deltas, reduced to an [int64]: a negative delta is
    added like any other, an overflow wraps around, and the order of the calls
    does not matter. The logger is offered one warning for each negative
    delta and nothing else happens; the help text stays. *)
Theorem Counter_Add_sums (v : stats.Counter) (deltas : list Z) :
  stats.is_int64 (stats.i v) ->
  stats.Counter_Get (Counter_AddAll v deltas).1 = stats.wrap64 (stats.i v + sumZ deltas) /\
  stats.is_int64 (stats.Counter_Get (Counter_AddAll v deltas).1) /\
  stats.Counter_Help (Counter_AddAll v deltas).1 = stats.Counter_Help v /\
  (Counter_AddAll v deltas).2
  = flat_map (fun delta => if (delta <? 0)%Z then [stats.NegativeWarning] else []) deltas /\
  (forall deltas', deltas ≡ₚ deltas' ->
     stats.Counter_Get (Counter_AddAll v deltas').1
     = stats.Counter_Get (Counter_AddAll v deltas).1).
Proof.
  intros Hv. unfold Counter_AddAll. rewrite Counter_AddAll_fold. cbn.
  rewrite (wrap64_fold deltas _ Hv). repeat split; try apply wrap64_int64.
  intros deltas' Hperm. rewrite Counter_AddAll_fold. cbn.
  rewrite (wrap64_fold deltas' _ Hv). now rewrite (sumZ_Permutation _ _ Hperm).
Qed.

(** A counter at the largest [int64] that is given 1 holds the smallest one;
    given 5 and then -7 from 0 it holds -2, and one warning was offered. *)
Lemma Counter_Add_sums_witness :
  stats.Counter_Get (Counter_AddAll (stats.mkCounter (2 ^ 63 - 1) "") [1%Z]).1 = (- 2 ^ 63)%Z /\
  stats.Counter_Get (Counter_AddAll (stats.mkCounter 0 "") [5%Z; (-7)%Z]).1 = (-2)%Z /\
  (Counter_AddAll (stats.mkCounter 0 "") [5%Z; (-7)%Z]).2 = [stats.NegativeWarning].
Proof.
  destruct (Counter_Add_sums (stats.mkCounter (2 ^ 63 - 1) "") [1%Z]) as [Hmax _].
  { unfold stats.is_int64. cbn. lia. }
  destruct (Counter_Add_sums (stats.mkCounter 0 "") [5%Z; (-7)%Z]) as [Hsum [_ [_ [Hwarn _]]]].
  { unfold stats.is_int64. cbn. lia. }
  split; [rewrite Hmax; reflexivity|]. split; [rewrite Hsum; reflexivity | exact Hwarn].
Defined.

Lemma Gauge_AddAll_fold (deltas : list Z) :
  forall (v : stats.Gauge) (events : list stats.Event),
    fold_left (fun acc delta =>
                 let '(v', events) := stats.Gauge_Add acc.1 delta in (v', acc.2 ++ events))
              deltas (v, events)
    = (stats.mkGauge
         (stats.mkCounter (fold_left (fun value delta => stats.wrap64 (value + delta)) deltas
                             (stats.i (stats.Gauge_Counter v)))
                          (stats.help (stats.Gauge_Counter v))),
       events).
Proof.
  induction deltas as [|delta deltas IH]; intros v events; cbn.
  - now destruct v as [[value help]].
  - rewrite IH. cbn. now rewrite app_nil_r.
Qed.

(** A gauge counts like the counter it embeds, and silently: after a sequence
    of [Add] calls it holds what the counter holds after the same calls, and
    no warning was offered, also for negative deltas. *)
Theorem Gauge_Add_as_Counter (v : stats.Gauge) (deltas : list Z) :
  stats.is_int64 (stats.i (stats.Gauge_Counter v)) ->
  stats.Gauge_Get (Gauge_AddAll v deltas).1
  = stats.Counter_Get (Counter_AddAll (stats.Gauge_Counter v) deltas).1 /\
  stats.Gauge_Get (Gauge_AddAll v deltas).1
  = stats.wrap64 (stats.i (stats.Gauge_Counter v) + sumZ deltas) /\
  (Gauge_AddAll v deltas).2 = [] /\
  stats.Gauge_Get (stats.Gauge_Reset (Gauge_AddAll v deltas).1) = 0%Z.
Proof.
  intros Hv. unfold Gauge_AddAll, Counter_AddAll.
  rewrite Gauge_AddAll_fold, Counter_AddAll_fold. cbn.
  rewrite (wrap64_fold deltas _ Hv). repeat split.
Qed.

Lemma Gauge_Add_as_Counter_witness :
  stats.Gauge_Get (Gauge_AddAll (stats.mkGauge (stats.mkCounter 0 "")) [5%Z; (-7)%Z]).1 = (-2)%Z /\
  (Gauge_AddAll (stats.mkGauge (stats.mkCounter 0 "")) [5%Z; (-7)%Z]).2 = [].
Proof.
  destruct (Gauge_Add_as_Counter (stats.mkGauge (stats.mkCounter 0 "")) [5%Z; (-7)%Z])
    as [_ [Hsum [Hev _]]].
  { unfold stats.is_int64. cbn. lia. }
  split; [rewrite Hsum; reflexivity | exact Hev].
Defined.

(** ** The direct cache of a new table *)

(** The nil map answers no lookup: [Dependencies] on it panics for every
    expression, on the hash of its first statement when the expression cannot
    be hashed and at its store otherwise. The direct cache of the table
    [NewSemTable] builds is the nil map, so on this table [DirectDeps] and
    [TableInfoForExpr] panic in the same way for every expression. *)
Theorem nil_map_answers_nothing (e : Expr) :
  let msg := match mapKey e with Some _ => nilMapStore | None => unhashable end in
  ExprDependencies_Dependencies nilDependencies e = Panicked msg /\
  DirectDeps NewSemTable e = Panicked msg /\
  TableInfoForExpr NewSemTable e = Panicked msg.
Proof.
  intros msg.
  assert (Hnil : ExprDependencies_Dependencies nilDependencies e = Panicked msg).
  { unfold msg. destruct (mapKey e) as [k|] eqn:Hk.
    - exact (Dependencies_nilDependencies e k Hk).
    - unfold ExprDependencies_Dependencies. now rewrite Hk. }
  assert (Hdirect : DirectDeps NewSemTable e = Panicked msg).
  { unfold DirectDeps. cbn [Direct NewSemTable]. now rewrite Hnil. }
  split; [exact Hnil|]. split; [exact Hdirect|].
  unfold TableInfoForExpr. now rewrite Hdirect.
Qed.
